(** * Prompt generation for Bengali to Sylheti translation

    A shallow embedding of [bengali_to_sylheti_prompt_generator.py] (and of
    [tokenize_bangla] of [glossary_retriever.py], which is the same
    tokenizer): the tokenizer, the glossary filter, the few-shot example
    selector and the prompt composer, with the properties the specification
    states about them.

    Python values are modelled as follows.
    - [str] is a sequence of Unicode code points: [list N].
    - [int] is [Z]; [len] is a [nat], injected into [Z] where the source
      mixes it with an [int].
    - [set] of [str] is stdpp's [gset].
    - a raised exception is a constructor of [result].
    - the process-wide generator behind [random.sample] and
      [random.shuffle] is an explicit tape of raw draws, threaded through
      the calls.
    - the similarity score, a [float] obtained by dividing two [int], is
      kept as the exact rational [Qc]. The division rounds to the nearest
      double, which is monotone and exact at 0 and 1, so every order fact
      below that is stated with [<=] carries over to the rounded scores. *)

From Stdlib Require Import ZArith QArith Qcanon Ascii String Sorted.
From stdpp Require Import base numbers list gmap sets.
From Equations Require Import Equations.

Open Scope Z_scope.
Open Scope nat_scope.

(** ** Strings *)

Definition char := N.
Definition pystr := list char.

(** An ASCII literal of the source as code points. *)
Fixpoint lit (s : string) : pystr :=
  match s with
  | EmptyString => []
  | String a s' => N_of_ascii a :: lit s'
  end.

Definition nl : pystr := [10%N].

(** [w in t] on strings: [w] occurs in [t] as a contiguous substring. *)
Fixpoint starts_with (w t : pystr) : bool :=
  match w, t with
  | [], _ => true
  | _ :: _, [] => false
  | c :: w', d :: t' => (c =? d)%N && starts_with w' t'
  end.

Fixpoint str_contains (t w : pystr) : bool :=
  starts_with w t ||
  match t with
  | [] => false
  | _ :: t' => str_contains t' w
  end.

(** [str.isspace] of one character: general category Zs or bidirectional
    class WS, B or S. *)
Definition isspace (c : char) : bool :=
  ((0x9 <=? c) && (c <=? 0xD) || (0x1C <=? c) && (c <=? 0x20)
   || (c =? 0x85) || (c =? 0xA0) || (c =? 0x1680)
   || (0x2000 <=? c) && (c <=? 0x200A)
   || (c =? 0x2028) || (c =? 0x2029) || (c =? 0x202F) || (c =? 0x205F)
   || (c =? 0x3000))%N.

Fixpoint lstrip (t : pystr) : pystr :=
  match t with
  | [] => []
  | c :: t' => if isspace c then lstrip t' else t
  end.

Definition rstrip (t : pystr) : pystr := rev (lstrip (rev t)).

(** [str.strip()] without arguments. *)
Definition strip (t : pystr) : pystr := rstrip (lstrip t).

(** [str(i)] of a non-negative [int], as the f-strings of the composer
    print it. *)
Fixpoint digits (u : Decimal.uint) : pystr :=
  match u with
  | Decimal.Nil => []
  | Decimal.D0 u' => 48%N :: digits u'
  | Decimal.D1 u' => 49%N :: digits u'
  | Decimal.D2 u' => 50%N :: digits u'
  | Decimal.D3 u' => 51%N :: digits u'
  | Decimal.D4 u' => 52%N :: digits u'
  | Decimal.D5 u' => 53%N :: digits u'
  | Decimal.D6 u' => 54%N :: digits u'
  | Decimal.D7 u' => 55%N :: digits u'
  | Decimal.D8 u' => 56%N :: digits u'
  | Decimal.D9 u' => 57%N :: digits u'
  end.

Definition str_of_nat (i : nat) : pystr := digits (Nat.to_uint i).

(** The part of [str.lower] that is independent of the Unicode tables: the
    ASCII capitals. It is the instance of the case mapping used to evaluate
    the functions below on concrete sentences; on the Bengali block, which
    has no case, and on ASCII it agrees with [str.lower]. *)
Definition lower_ascii (t : pystr) : pystr :=
  map (fun c => if ((0x41 <=? c) && (c <=? 0x5A))%N then (c + 32)%N else c) t.

(** ** Tokenizer

    [re.findall(r'[ঀ-৿]+', sentence)]: the scan starts at the
    left; where the character is not in the class no match starts and the
    scan moves one character on; where it is, the greedy [+] consumes the
    whole run ([class_run]) and the scan resumes behind it
    ([class_rest]). *)

Definition in_bengali_block (c : char) : bool :=
  ((0x980 <=? c) && (c <=? 0x9FF))%N.

Fixpoint class_run (t : pystr) : pystr :=
  match t with
  | [] => []
  | c :: t' => if in_bengali_block c then c :: class_run t' else []
  end.

Fixpoint class_rest (t : pystr) : pystr :=
  match t with
  | [] => []
  | c :: t' => if in_bengali_block c then class_rest t' else t
  end.

Equations? findall (t : pystr) : list pystr by wf (length t) lt :=
  findall [] := [];
  findall (c :: t') with in_bengali_block c => {
    | true := (c :: class_run t') :: findall (class_rest t');
    | false := findall t' }.
Proof.
  assert (forall u, length (class_rest u) <= length u) as Hrest.
  { induction u as [|d u IH]; simpl; [lia|].
    destruct (in_bengali_block d); simpl; lia. }
  specialize (Hrest t'). simpl. lia.
Qed.

Definition tokenize_sentence (sentence : pystr) : list pystr := findall sentence.

Definition tokenize_bangla (sentence : pystr) : list pystr := findall sentence.

(** ** Records

    The dictionaries of the glossary and of the example pool, with the keys
    the functions read. *)

Record GlossaryEntry := { bangla : pystr; sylheti : pystr }.

Record Example := { bangla_speech : pystr; sylhet_bangla_speech : pystr }.

(** ** Exceptions and the random generator *)

Inductive exn := ValueError.

Inductive result (A : Type) :=
| Ok (a : A)
| Raise (e : exn).
Arguments Ok {A} a.
Arguments Raise {A} e.

(** The raw draws the generator will deliver, in order. A computation
    reads from the front and returns what is left. *)
Definition tape := list nat.

Definition Rand (A : Type) : Type := tape -> result A * tape.

Definition ret {A} (a : A) : Rand A := fun g => (Ok a, g).

Definition raise {A} (e : exn) : Rand A := fun g => (Raise e, g).

Definition bind {A B} (m : Rand A) (f : A -> Rand B) : Rand B :=
  fun g =>
    match m g with
    | (Ok a, g') => f a g'
    | (Raise e, g') => (Raise e, g')
    end.

Notation "x <- m ;; k" := (bind m (fun x => k))
  (at level 100, m at next level, right associativity).

(** A uniform index below [n]; an exhausted tape delivers zeros. *)
Definition randbelow (n : nat) : Rand nat :=
  fun g =>
    match g with
    | [] => (Ok 0, [])
    | r :: g' => (Ok (r mod n), g')
    end.

(** [k] draws without replacement: each draw takes the element at a random
    position out of the pool. *)
Fixpoint draw {A} (k : nat) (pool : list A) : Rand (list A) :=
  match k with
  | 0 => ret []
  | S k' =>
      j <- randbelow (length pool) ;;
      match pool !! j with
      | Some x => rest <- draw k' (delete j pool) ;; ret (x :: rest)
      | None => ret []
      end
  end.

(** [random.sample(population, k)]: a [k]-length list of elements at
    distinct positions of the population, and [ValueError] when [k] is
    negative or larger than the population. *)
Definition random_sample {A} (population : list A) (k : Z) : Rand (list A) :=
  if bool_decide (0 <= k <= Z.of_nat (length population))%Z
  then draw (Z.to_nat k) population
  else raise ValueError.

(** [random.shuffle(x)]: the list in a random order. The source shuffles a
    list it has just built, so the result is returned instead of written
    in place. *)
Definition random_shuffle {A} (x : list A) : Rand (list A) :=
  draw (length x) x.

(** ** Sorting by score

    [scored_examples.sort(key=lambda x: x[0], reverse=True)]: only the
    scores are compared, the list comes out with the scores descending, and
    entries with equal scores keep the order they had ([list.sort] is
    stable, also with [reverse=True]). Insertion from the right realises
    it: an entry is put in front of the first entry whose score is not
    strictly larger. *)

Fixpoint insert_desc {A} (x : Qc * A) (l : list (Qc * A)) : list (Qc * A) :=
  match l with
  | [] => [x]
  | y :: l' =>
      if bool_decide (x.1 < y.1)%Qc then y :: insert_desc x l' else x :: l
  end.

Fixpoint sort_desc {A} (l : list (Qc * A)) : list (Qc * A) :=
  match l with
  | [] => []
  | x :: l' => insert_desc x (sort_desc l')
  end.

(** ** Similarity

    [a / b] on a non-negative [int] and a positive one. *)
Definition truediv (a b : nat) : Qc :=
  Q2Qc (Z.of_nat a # Pos.of_nat b).

(** [len(I.intersection(E)) / max(1, len(I.union(E)))] *)
Definition similarity (input_tokens example_tokens : gset pystr) : Qc :=
  truediv (size (input_tokens ∩ example_tokens))
          (Nat.max 1 (size (input_tokens ∪ example_tokens))).

(** [int(num_examples * 0.6)]. The double nearest to 0.6 is
    0.6 - 0.2 * 2^-53; for [|num_examples| < 2^50] the rounded product
    truncates to the same integer as the exact 3/5 of [num_examples]
    (a multiple of 5 gives a product that rounds to the integer itself, any
    other one stays at least 0.2 away from the next integer), and the
    selector reaches this expression only with [num_examples] below the
    length of a list. [int] truncates toward zero, as [Z.quot] does.
    For a request of zero or below, the product is not positive and the
    truncation not either, whatever the rounding, as long as the product
    exists: from [|num_examples| >= 2^1024] on, the conversion of
    [num_examples] to a float raises [OverflowError]. That path is left
    out here, and what is stated of every request of zero or below is
    stated for [-2^1023 < num_examples]. *)
Definition int_times_0_6 (num_examples : Z) : Z :=
  Z.quot (3 * num_examples) 5.

Section Core.

(** [str.lower], the case mapping of the Unicode tables of the interpreter. *)
Variable lower : pystr -> pystr.

(** ** Glossary filter *)

Fixpoint filter_loop (input_tokens : gset pystr) (lowered : pystr)
    (glossary : list GlossaryEntry)
    (seen : gset pystr) (unique_entries : list GlossaryEntry)
    : list GlossaryEntry :=
  match glossary with
  | [] => unique_entries
  | entry :: glossary' =>
      let bangla_word := lower (strip (bangla entry)) in
      if (bool_decide (bangla_word ∈ input_tokens)
          || str_contains lowered bangla_word)
         && negb (bool_decide (bangla_word ∈ seen))
      then filter_loop input_tokens lowered glossary'
             ({[bangla_word]} ∪ seen) (unique_entries ++ [entry])
      else filter_loop input_tokens lowered glossary' seen unique_entries
  end.

Definition filter_relevant_glossary (input_sentence : pystr)
    (glossary : list GlossaryEntry) : list GlossaryEntry :=
  let input_tokens : gset pystr :=
    list_to_set (tokenize_sentence (lower input_sentence)) in
  filter_loop input_tokens (lower input_sentence) glossary ∅ [].

(** ** Example selector *)

Definition token_set (sentence : pystr) : gset pystr :=
  list_to_set (tokenize_sentence (lower sentence)).

(** The list [scored_examples] before it is sorted. *)
Definition score_examples (input_sentence : pystr) (examples : list Example)
    : list (Qc * Example) :=
  let input_tokens := token_set input_sentence in
  map (fun example =>
         (similarity input_tokens (token_set (bangla_speech example)), example))
      examples.

(** The list [scored_examples] after the sort. *)
Definition scored_examples (input_sentence : pystr) (examples : list Example)
    : list (Qc * Example) :=
  sort_desc (score_examples input_sentence examples).

(** The bound of the two slices, [max(1, int(num_examples * 0.6))]. *)
Definition top_n (num_examples : Z) : nat :=
  Z.to_nat (Z.max 1 (int_times_0_6 num_examples)).

Definition top_examples (input_sentence : pystr) (examples : list Example)
    (num_examples : Z) : list Example :=
  map snd (take (top_n num_examples) (scored_examples input_sentence examples)).

Definition remaining (input_sentence : pystr) (examples : list Example)
    (num_examples : Z) : list Example :=
  map snd (drop (top_n num_examples) (scored_examples input_sentence examples)).

Definition select_fewshot_examples (input_sentence : pystr)
    (examples : list Example) (num_examples : Z) : Rand (list Example) :=
  if bool_decide (Z.of_nat (length examples) <= num_examples)%Z
  then ret examples
  else
    let top := top_examples input_sentence examples num_examples in
    let rem := remaining input_sentence examples num_examples in
    random_examples <-
      random_sample rem
        (Z.min (Z.of_nat (length rem))
               (num_examples - Z.of_nat (length top))) ;;
    random_shuffle (top ++ random_examples).

End Core.

(** ** Prompt composer *)

Definition system_instructions : pystr :=
  lit "You are an expert translator from Bengali (Bangla) to Sylheti. " ++ nl ++
  lit "            Follow these guidelines for translation:" ++ nl ++
  lit "            1. Preserve the original meaning and intent of the Bengali sentence" ++ nl ++
  lit "            2. Use appropriate Sylheti vocabulary and grammar patterns" ++ nl ++
  lit "            3. Respect idioms and cultural expressions specific to Sylheti" ++ nl ++
  lit "            4. Follow the few-shot examples provided below" ++ nl ++
  lit "            5. Utilize the glossary entries when appropriate" ++ nl ++
  lit "            6. Maintain the tone and register of the original sentence" ++ nl ++
  nl ++
  lit "            Translate the Bengali text to natural, fluent Sylheti.".

(** The text one pass of the first loop appends. *)
Definition example_item (i : nat) (example : Example) : pystr :=
  str_of_nat i ++ lit ". Bangla: " ++ bangla_speech example ++ nl ++
  lit "   Sylheti: " ++ sylhet_bangla_speech example ++ nl ++ nl.

(** The text one pass of the second loop appends; 8594 is the arrow. *)
Definition glossary_item (i : nat) (entry : GlossaryEntry) : pystr :=
  str_of_nat i ++ lit ". Bangla: " ++ bangla entry ++ [32; 8594; 32]%N ++
  lit "Sylheti: " ++ sylheti entry ++ nl.

(** [for i, x in enumerate(xs, i): text += item(i, x)] *)
Fixpoint append_items {A} (item : nat -> A -> pystr) (i : nat) (xs : list A)
    (text : pystr) : pystr :=
  match xs with
  | [] => text
  | x :: xs' => append_items item (S i) xs' (text ++ item i x)
  end.

Definition construct_prompt (input_sentence : pystr)
    (selected_examples : list Example)
    (relevant_glossary : list GlossaryEntry) : pystr :=
  let examples_text :=
    append_items example_item 1 selected_examples
      (lit "Few-shot examples:" ++ nl) in
  let glossary_text :=
    append_items glossary_item 1 relevant_glossary (lit "Glossary:" ++ nl) in
  let input_text := lit "Bangla: " ++ input_sentence ++ nl ++ lit "Sylheti:" in
  system_instructions ++ nl ++ nl ++ examples_text ++ nl ++ glossary_text
    ++ nl ++ nl ++ input_text.

(** ** The properties of the specification

    [substring w t]: [w] occurs in [t] as a contiguous piece. *)
Definition substring (w t : pystr) : Prop :=
  exists pre post, t = pre ++ w ++ post.

(** The specification's reading of the tokenizer: the text is cut into
    separators (characters outside the block) and runs (non-empty, inside
    the block), and a run ends only at the end of the text or in front of a
    separator character. *)

Definition sep_char (c : char) : Prop := in_bengali_block c = false.
Definition script_char (c : char) : Prop := in_bengali_block c = true.

Definition run_ends (t : pystr) : Prop :=
  match t with
  | [] => True
  | c :: _ => sep_char c
  end.

Inductive maximal_runs : pystr -> list pystr -> Prop :=
| runs_end sep :
    Forall sep_char sep -> maximal_runs sep []
| runs_tok sep run t toks :
    Forall sep_char sep -> run <> [] -> Forall script_char run ->
    run_ends t -> maximal_runs t toks ->
    maximal_runs (sep ++ run ++ t) (run :: toks).

(** The specification's reading of the glossary filter, for a given notion
    [key] of the source word an entry is matched and deduplicated by: an
    entry is kept iff its key is a token of the lower-cased sentence or a
    substring of it, and no entry in front of it with the same key
    qualified. *)

Section FilterSpec.

Variable lower : pystr -> pystr.
Variable key : GlossaryEntry -> pystr.

Definition qualifies (input_sentence w : pystr) : bool :=
  bool_decide (w ∈ token_set lower input_sentence)
  || str_contains (lower input_sentence) w.

Definition qualified_before (input_sentence : pystr)
    (earlier : list GlossaryEntry) (w : pystr) : bool :=
  existsb (fun e => qualifies input_sentence (key e) && bool_decide (key e = w))
          earlier.

Fixpoint first_qualifying (input_sentence : pystr)
    (earlier glossary : list GlossaryEntry) : list GlossaryEntry :=
  match glossary with
  | [] => []
  | entry :: glossary' =>
      let rest := first_qualifying input_sentence (earlier ++ [entry]) glossary' in
      if qualifies input_sentence (key entry)
         && negb (qualified_before input_sentence earlier (key entry))
      then entry :: rest
      else rest
  end.

Definition filter_glossary_spec (input_sentence : pystr)
    (glossary : list GlossaryEntry) : list GlossaryEntry :=
  first_qualifying input_sentence [] glossary.

(** What the specification promises of the filter. *)
Definition filter_glossary_contract (input_sentence : pystr)
    (glossary : list GlossaryEntry) : Prop :=
  let out := filter_relevant_glossary lower input_sentence glossary in
  out = filter_glossary_spec input_sentence glossary
  /\ sublist out glossary
  /\ Forall (fun e => substring (key e) (lower input_sentence)) out
  /\ NoDup (map key out).

End FilterSpec.

(** The source word lower-cased, as the specification words it, and
    stripped and lower-cased, as the loop computes [bangla_word]. *)
Definition lowered_word (lower : pystr -> pystr) (e : GlossaryEntry) : pystr :=
  lower (bangla e).

Definition bangla_word (lower : pystr -> pystr) (e : GlossaryEntry) : pystr :=
  lower (strip (bangla e)).

(** [max(1, floor(0.6 * k))] of the specification. *)
Definition spec_top_n (k : Z) : nat := Z.to_nat (Z.max 1 (3 * k / 5)).

(** The top-similarity tranche: the first [spec_top_n k] examples of the
    similarity-descending order. *)
Definition top_tranche (lower : pystr -> pystr) (s : pystr)
    (P : list Example) (k : Z) : list Example :=
  map snd (take (spec_top_n k) (scored_examples lower s P)).

(** What the specification promises of a selection from a pool larger than
    [k], whatever the generator draws: the call returns, with at most [k]
    and at least [spec_top_n k] examples, among them the whole tranche. *)
Definition selection_bounds (lower : pystr -> pystr) (s : pystr)
    (P : list Example) (k : Z) : Prop :=
  forall g : tape, exists out g',
    select_fewshot_examples lower s P k g = (Ok out, g')
    /\ (Z.of_nat (length out) <= k)%Z
    /\ spec_top_n k <= length out
    /\ length (top_tranche lower s P k) = spec_top_n k
    /\ exists others, out ≡ₚ top_tranche lower s P k ++ others.

(** Scores descending. *)
Definition descending {A} (l : list (Qc * A)) : Prop :=
  StronglySorted (fun a b => (b.1 <= a.1)%Qc) l.

(** The entries of a scored list that carry the score [v], in order. *)
Definition with_score {A} (v : Qc) (l : list (Qc * A)) : list (Qc * A) :=
  List.filter (fun p => bool_decide (p.1 = v)) l.

(** ** Sample data

    "আমার বই আছে" and its words, a glossary and a pool of ten examples. *)

Definition amar : pystr := [0x986; 0x9AE; 0x9BE; 0x9B0]%N.
Definition boi : pystr := [0x9AC; 0x987]%N.
Definition ache : pystr := [0x986; 0x99B; 0x9C7]%N.
Definition kitab : pystr := [0x995; 0x9BF; 0x9A4; 0x9BE; 0x9AC]%N.
Definition space : pystr := [0x20%N].
Definition amar_boi_ache : pystr := amar ++ space ++ boi ++ space ++ ache.

Definition boi_entry : GlossaryEntry := {| bangla := boi; sylheti := kitab |}.

(** The same entry with a trailing blank in the source word. *)
Definition boi_blank_entry : GlossaryEntry :=
  {| bangla := boi ++ space; sylheti := kitab |}.

Definition empty_example : Example :=
  {| bangla_speech := []; sylhet_bangla_speech := [] |}.

Definition empty_entry : GlossaryEntry := {| bangla := []; sylheti := [] |}.

Definition example_of (s : pystr) : Example :=
  {| bangla_speech := s; sylhet_bangla_speech := s |}.

Definition pool3 : list Example :=
  [example_of amar; example_of boi; example_of ache].

Definition pool10 : list Example :=
  [example_of amar; example_of boi; example_of amar_boi_ache;
   example_of ache; example_of (amar ++ space ++ boi);
   example_of (boi ++ space ++ ache); example_of kitab;
   example_of (kitab ++ space ++ boi); example_of (amar ++ space ++ kitab);
   example_of (lit "no script here")].

(** A pool of ten whose first four examples all have the source sentence
    "বই" and differ in the target only. *)
Definition boi_to (target : pystr) : Example :=
  {| bangla_speech := boi; sylhet_bangla_speech := target |}.

Definition tied_pool : list Example :=
  [boi_to kitab; boi_to amar; boi_to ache; boi_to boi;
   example_of amar; example_of ache; example_of kitab;
   example_of amar_boi_ache; example_of (amar ++ space ++ kitab);
   example_of (lit "no script here")].

(** ** Loaders and the complete prompt

    What opening and parsing a file delivers to a loader: the parsed
    content, or an exception on the way (a missing file, a decoding or
    parsing error). *)
Inductive read (A : Type) :=
| Delivered (a : A)
| ReadError.
Arguments Delivered {A} a.
Arguments ReadError {A}.

(** A row as [csv.DictReader] yields it: the header names mapped to the
    fields of the line, and to [None] where the line is too short. *)
Abbreviation row := (gmap pystr (option pystr)).

(** The loop of [load_glossary]; [None] is an exception raised in the body
    ([None] has no [strip]). *)
Fixpoint load_rows (rows : list row) (glossary : list GlossaryEntry)
    : option (list GlossaryEntry) :=
  match rows with
  | [] => Some glossary
  | r :: rows' =>
      match r !! lit "ben", r !! lit "syl" with
      | Some ben, Some syl =>
          match ben, syl with
          | Some b, Some s =>
              load_rows rows'
                (glossary ++ [{| bangla := strip b; sylheti := strip s |}])
          | _, _ => None
          end
      | _, _ => load_rows rows' glossary
      end
  end.

(** [load_glossary]: every exception is caught and answered with the empty
    glossary. *)
Definition load_glossary (csv : read (list row)) : list GlossaryEntry :=
  match csv with
  | Delivered rows =>
      match load_rows rows [] with
      | Some glossary => glossary
      | None => []
      end
  | ReadError => []
  end.



(** ** Glossary retriever

    [{word: glossary_dict[word] for word in tokens if word in glossary_dict}];
    the order in which a Python [dict] lists its keys is not kept by the
    map. *)
Fixpoint extract_loop (tokens : list pystr) (glossary_dict matched : gmap pystr pystr)
    : gmap pystr pystr :=
  match tokens with
  | [] => matched
  | word :: tokens' =>
      match glossary_dict !! word with
      | Some v => extract_loop tokens' glossary_dict (<[word := v]> matched)
      | None => extract_loop tokens' glossary_dict matched
      end
  end.

Definition extract_glossary_subset (tokens : list pystr)
    (glossary_dict : gmap pystr pystr) : gmap pystr pystr :=
  extract_loop tokens glossary_dict ∅.

(** ** Dialect to language translation ([dialect_to_language.py]) *)

Module DialectToLanguage.

Inductive exn :=
| KeyError (key : pystr)
| ValueError
| APIError.

(** An item of the data file: a JSON object with string values. *)
Abbreviation item := (gmap pystr pystr).

(** The module-level configuration the function reads. *)
Definition dialect_dir : pystr := lit "Sylhet".

Definition pad : pystr := lit "            ".

Definition zero_shot_prompt (dialect language sentence : pystr) : pystr * pystr :=
  let sys_prompt :=
    nl ++ lit "You are an expert translator from " ++ dialect
    ++ lit " dialect of Bengali to standard " ++ language ++ lit " language." ++ nl
    ++ pad ++ lit "Follow these guidelines for translation:" ++ nl
    ++ pad ++ lit "1. Preserve the original meaning and intent of the " ++ dialect
    ++ lit " sentence" ++ nl
    ++ pad ++ lit "2. Use appropriate vocabulary and grammar patterns" ++ nl
    ++ pad ++ lit "3. Respect idioms and cultural expressions" ++ nl
    ++ pad ++ lit "4. Maintain the tone and register of the original sentence" ++ nl
    ++ nl
    ++ pad ++ lit "Translate the " ++ dialect ++ lit " text to natural, fluent "
    ++ language ++ lit ". Provide the translation in " ++ language
    ++ lit " without any additional commentary or explanation or artifacts" ++ nl
    ++ pad in
  let user_prompt :=
    nl ++ pad ++ dialect ++ lit ": " ++ sentence ++ nl
    ++ pad ++ language ++ lit ":" ++ nl ++ pad in
  (sys_prompt, user_prompt).

(** The translation service is its answers: the content of the responses
    it will give, in order; when none is left the request fails and the
    exception of the client library escapes. *)
Definition OpenAI_translate (sys_prompt user_prompt model : pystr)
    (client : list pystr) : (exn + pystr) * list pystr :=
  match client with
  | [] => (inl APIError, [])
  | content :: client' => (inr (strip content), client')
  end.

Definition input_sentence_key : pystr :=
  lower_ascii dialect_dir ++ lit "_bangla_speech".

(** The loop of [process_file], with the counter [i] and the list
    [translations] as they stand before the next item. The [print] of the
    loop reads [new_item['translation']], which is the look-up of the
    second branch. *)
Fixpoint process_items (dialect language method model : pystr)
    (data : list item) (i : Z) (translations : list item)
    (client : list pystr) : (exn + list item) * list pystr :=
  match data with
  | [] => (inr translations, client)
  | it :: data' =>
      let i := (i + 1)%Z in
      if bool_decide (i = 5%Z) then (inr translations, client)
      else
        match it !! input_sentence_key with
        | None => (inl (KeyError input_sentence_key), client)
        | Some sentence =>
            if bool_decide (method = lit "Zero-Shot") then
              let '(sys_prompt, user_prompt) :=
                zero_shot_prompt dialect language sentence in
              match OpenAI_translate sys_prompt user_prompt model client with
              | (inl e, client') => (inl e, client')
              | (inr translation, client') =>
                  process_items dialect language method model data' i
                    (translations ++ [<[lit "translation" := translation]> it])
                    client'
              end
            else if bool_decide (method = lit "Few-Shot") then
              match it !! lit "translation" with
              | None => (inl (KeyError (lit "translation")), client)
              | Some _ =>
                  process_items dialect language method model data' i
                    (translations ++ [it]) client
              end
            else (inl ValueError, client)
        end
  end.

(** [process_file], up to the list it writes to the output file and
    returns. *)
Definition process_file (data : list item)
    (dialect language method model : pystr) (client : list pystr)
    : (exn + list item) * list pystr :=
  process_items dialect language method model data 1 [] client.

End DialectToLanguage.

(** ** More sample data *)

Definition blank_entry : GlossaryEntry :=
  {| bangla := space ++ space; sylheti := kitab |}.

Definition boi_row : row :=
  {[ lit "ben" := Some (space ++ boi); lit "syl" := Some (kitab ++ space) ]}.

(** A line with the source word only. *)
Definition short_row : row :=
  {[ lit "ben" := Some amar; lit "syl" := None ]}.

Definition boi_dict : gmap pystr pystr :=
  {[ boi := kitab; amar ++ space ++ boi := kitab ]}.

Definition item_of (s : pystr) : gmap pystr pystr :=
  {[ lit "sylhet_bangla_speech" := s ]}.

(** No white space at the front. *)
Definition starts_clean (t : pystr) : Prop :=
  match t with
  | [] => True
  | c :: _ => isspace c = false
  end.

(** No white space at either end. *)
Definition stripped (t : pystr) : Prop :=
  starts_clean t /\ starts_clean (rev t).

Definition fields_stripped (e : GlossaryEntry) : Prop :=
  stripped (bangla e) /\ stripped (sylheti e).

(** An item carries the sentence to translate. *)
Definition has_sentence (it : gmap pystr pystr) : Prop :=
  is_Some (it !! DialectToLanguage.input_sentence_key).

(** The item with the stripped content of a response as its translation. *)
Definition translated (it : gmap pystr pystr) (content : pystr)
    : gmap pystr pystr :=
  <[lit "translation" := strip content]> it.

(** The scenario of the specification as it words it, for an example [e]
    of the pool [P] whose source is the input sentence: [e] is in the
    tranche of [k = 5], its similarity is 1 and no score is higher, and
    every selection holds it. *)
Definition identical_sentence_claim (lower : pystr -> pystr)
    (P : list Example) (e : Example) : Prop :=
  e ∈ top_tranche lower (bangla_speech e) P 5
  /\ similarity (token_set lower (bangla_speech e))
                (token_set lower (bangla_speech e)) = 1%Qc
  /\ Forall (fun p => (p.1 <= similarity (token_set lower (bangla_speech e))
                                         (token_set lower (bangla_speech e)))%Qc)
            (scored_examples lower (bangla_speech e) P)
  /\ forall g : tape, exists out g',
       select_fewshot_examples lower (bangla_speech e) P 5 g = (Ok out, g')
       /\ e ∈ out.

(** A pool of ten whose third example has a source sentence without any
    character of the script. *)
Definition unscripted_pool : list Example :=
  [example_of amar; example_of boi; example_of (lit "no script here");
   example_of ache; example_of (amar ++ space ++ boi);
   example_of (boi ++ space ++ ache); example_of kitab;
   example_of (kitab ++ space ++ boi); example_of (amar ++ space ++ kitab);
   example_of amar_boi_ache].

(** * Properties *)

(** ** Tokenizer *)

Lemma class_run_rest t : class_run t ++ class_rest t = t.
Proof.
  induction t as [|c t IH]; simpl; [done|].
  destruct (in_bengali_block c); simpl; [by rewrite IH | done].
Qed.

Lemma class_rest_length t : length (class_rest t) <= length t.
Proof.
  rewrite <- (class_run_rest t) at 2. rewrite length_app. lia.
Qed.

Lemma class_run_script t : Forall script_char (class_run t).
Proof.
  induction t as [|c t IH]; simpl; [constructor|].
  destruct (in_bengali_block c) eqn:E; constructor; done.
Qed.

Lemma class_rest_ends t : run_ends (class_rest t).
Proof.
  induction t as [|c t IH]; simpl; [done|].
  destruct (in_bengali_block c) eqn:E; [done | exact E].
Qed.

Lemma class_run_app run t :
  Forall script_char run -> run_ends t -> class_run (run ++ t) = run.
Proof.
  induction 1 as [|c run Hc _ IH]; intros Ht; simpl.
  - destruct t as [|d t]; simpl in *; [done | by rewrite Ht].
  - rewrite Hc. by rewrite IH.
Qed.

Lemma class_rest_app run t :
  Forall script_char run -> run_ends t -> class_rest (run ++ t) = t.
Proof.
  induction 1 as [|c run Hc _ IH]; intros Ht; simpl.
  - destruct t as [|d t]; simpl in *; [done | by rewrite Ht].
  - rewrite Hc. by apply IH.
Qed.

Lemma findall_sep c t : sep_char c -> findall (c :: t) = findall t.
Proof. intros Hc. simp findall. rewrite Hc. done. Qed.

Lemma findall_script c t :
  script_char c ->
  findall (c :: t) = (c :: class_run t) :: findall (class_rest t).
Proof. intros Hc. simp findall. rewrite Hc. done. Qed.

Lemma findall_seps sep t : Forall sep_char sep -> findall (sep ++ t) = findall t.
Proof.
  induction 1 as [|c sep Hc _ IH]; simpl; [done|].
  by rewrite findall_sep.
Qed.

Lemma maximal_runs_sep c t toks :
  sep_char c -> maximal_runs t toks -> maximal_runs (c :: t) toks.
Proof.
  intros Hc H. destruct H as [sep Hsep | sep run t toks Hsep Hne Hrun Hend Hrest].
  - apply runs_end. by constructor.
  - apply (runs_tok (c :: sep)); try done. by constructor.
Qed.

Lemma findall_maximal_runs t : maximal_runs t (findall t).
Proof.
  remember (length t) as n eqn:Hn. revert t Hn.
  induction n as [n IH] using lt_wf_ind. intros t ->.
  destruct t as [|c t]; [simp findall; by apply runs_end|].
  destruct (in_bengali_block c) eqn:Hc.
  - rewrite findall_script by done.
    rewrite <- (class_run_rest t) at 1.
    apply (runs_tok [] (c :: class_run t) (class_rest t)); try done.
    + constructor; [done | apply class_run_script].
    + apply class_rest_ends.
    + eapply IH; [|done]. pose proof (class_rest_length t). simpl. lia.
  - rewrite findall_sep by done. apply maximal_runs_sep; [done|].
    eapply IH; [|done]. simpl. lia.
Qed.

Lemma maximal_runs_findall t toks : maximal_runs t toks -> toks = findall t.
Proof.
  induction 1 as [sep Hsep | sep run t toks Hsep Hne Hrun Hend _ IH].
  - rewrite <- (app_nil_r sep). rewrite findall_seps by done. by simp findall.
  - rewrite findall_seps by done.
    destruct Hrun as [|c run Hc Hrun]; [done|]. simpl.
    rewrite findall_script by done.
    rewrite class_run_app, class_rest_app by done. by rewrite IH.
Qed.

Lemma maximal_runs_tokens t toks :
  maximal_runs t toks ->
  Forall (fun tok => tok <> [] /\ Forall script_char tok) toks.
Proof. induction 1; constructor; done. Qed.

Lemma filter_seps sep : Forall sep_char sep -> List.filter in_bengali_block sep = [].
Proof. induction 1 as [|c sep Hc _ IH]; simpl; [done|]. by rewrite Hc. Qed.

Lemma filter_script run :
  Forall script_char run -> List.filter in_bengali_block run = run.
Proof.
  induction 1 as [|c run Hc _ IH]; simpl; [done|]. rewrite Hc. by rewrite IH.
Qed.

Lemma maximal_runs_concat t toks :
  maximal_runs t toks -> concat toks = List.filter in_bengali_block t.
Proof.
  induction 1 as [sep Hsep | sep run t toks Hsep Hne Hrun Hend _ IH]; simpl.
  - by rewrite filter_seps.
  - rewrite !List.filter_app, filter_seps, filter_script by done.
    simpl. by rewrite IH.
Qed.

Lemma maximal_runs_substring t toks tok :
  maximal_runs t toks -> tok ∈ toks -> substring tok t.
Proof.
  induction 1 as [sep Hsep | sep run t toks Hsep Hne Hrun Hend _ IH].
  - intros Hin. by apply not_elem_of_nil in Hin.
  - intros [-> | Hin]%elem_of_cons.
    + by exists sep, t.
    + destruct (IH Hin) as (pre & post & ->).
      exists (sep ++ run ++ pre), post. by rewrite <- !app_assoc.
Qed.

Lemma token_substring t tok : tok ∈ tokenize_sentence t -> substring tok t.
Proof. apply maximal_runs_substring, findall_maximal_runs. Qed.

(** C8: for every text, the tokenizer returns exactly the maximal runs of
    characters of the block U+0980 to U+09FF, in their order: the text
    decomposes into separators and the returned runs, no other list of runs
    fits, every token is a non-empty string of block characters, the tokens
    concatenated are the block characters of the text in order, the
    result is empty exactly when the text has no block character, and the
    tokenizer of the glossary retriever is the same function. *)
Theorem tokenize_maximal_runs (t : pystr) :
  maximal_runs t (tokenize_sentence t)
  /\ (forall toks, maximal_runs t toks -> toks = tokenize_sentence t)
  /\ Forall (fun tok => tok <> [] /\ Forall script_char tok) (tokenize_sentence t)
  /\ concat (tokenize_sentence t) = List.filter in_bengali_block t
  /\ (tokenize_sentence t = [] <-> Forall sep_char t)
  /\ tokenize_bangla t = tokenize_sentence t.
Proof.
  unfold tokenize_sentence, tokenize_bangla.
  pose proof (findall_maximal_runs t) as H.
  split_and!; try done.
  - apply maximal_runs_findall.
  - by eapply maximal_runs_tokens.
  - by apply maximal_runs_concat.
  - split.
    + intros E. rewrite E in H. by inversion H.
    + intros Hs. rewrite <- (app_nil_r t). rewrite findall_seps by done.
      by simp findall.
Qed.

Lemma tokenize_maximal_runs_witness :
  maximal_runs amar_boi_ache [amar; boi; ache]
  /\ [amar; boi; ache] = tokenize_sentence amar_boi_ache.
Proof.
  assert (maximal_runs amar_boi_ache [amar; boi; ache]) as Hruns.
  { apply (runs_tok [] amar (space ++ boi ++ space ++ ache));
      [repeat constructor | done | repeat constructor | reflexivity |].
    apply (runs_tok space boi (space ++ ache));
      [repeat constructor | done | repeat constructor | reflexivity |].
    apply (runs_tok space ache []);
      [repeat constructor | done | repeat constructor | exact I |].
    apply (runs_end []). constructor. }
  split; [exact Hruns|].
  exact (proj1 (proj2 (tokenize_maximal_runs amar_boi_ache)) _ Hruns).
Defined.

(** ** Substrings *)

Lemma starts_with_spec w t :
  starts_with w t = true <-> exists post, t = w ++ post.
Proof.
  revert t. induction w as [|c w IH]; intros t; simpl.
  - split; [intros _; by exists t | done].
  - destruct t as [|d t].
    + split; [done | intros [post Hp]; discriminate Hp].
    + rewrite andb_true_iff, N.eqb_eq, IH. split.
      * intros [-> [post ->]]. by exists post.
      * intros [post Hp]. injection Hp as -> ->. split; [done | by exists post].
Qed.

Lemma str_contains_spec t w : str_contains t w = true <-> substring w t.
Proof.
  induction t as [|d t IH]; simpl.
  - rewrite orb_false_r, starts_with_spec. split.
    + intros [post Hp]. by exists [], post.
    + intros (pre & post & Hp). symmetry in Hp.
      apply app_eq_nil in Hp as [-> Hp]. apply app_eq_nil in Hp as [-> ->].
      by exists [].
  - rewrite orb_true_iff, starts_with_spec, IH. split.
    + intros [[post Hp] | (pre & post & Hp)].
      * by exists [], post.
      * exists (d :: pre), post. by rewrite Hp.
    + intros (pre & post & Hp). destruct pre as [|c pre].
      * left. by exists post.
      * right. injection Hp as -> ->. by exists pre, post.
Qed.

(** ** Glossary filter *)

Section FilterProps.

Variable lower : pystr -> pystr.
Variable s : pystr.

(** The token test of the condition is subsumed by the substring test. *)
Lemma qualifies_substring w :
  qualifies lower s w = true <-> substring w (lower s).
Proof.
  unfold qualifies. rewrite orb_true_iff, bool_decide_eq_true, str_contains_spec.
  split; [|by right].
  intros [Hin | Hsub]; [|done].
  unfold token_set in Hin. apply elem_of_list_to_set in Hin.
  by apply token_substring.
Qed.

Lemma qualified_before_spec key earlier w :
  qualified_before lower key s earlier w = true
  <-> exists e, e ∈ earlier /\ qualifies lower s (key e) = true /\ key e = w.
Proof.
  unfold qualified_before. rewrite existsb_exists. split.
  - intros (e & Hin & Hc). apply andb_true_iff in Hc as [Hq Hk].
    apply bool_decide_eq_true in Hk. exists e.
    by rewrite list_elem_of_In.
  - intros (e & Hin & Hq & Hk). exists e. rewrite <- list_elem_of_In.
    split; [done|]. rewrite Hq. simpl. by apply bool_decide_eq_true.
Qed.

(** The loop against the specification: [seen] holds the keys of the
    entries in front that qualified. *)
Lemma filter_loop_spec glossary earlier seen unique_entries :
  (forall w, w ∈ seen <->
     qualified_before lower (bangla_word lower) s earlier w = true) ->
  filter_loop lower (token_set lower s) (lower s) glossary seen unique_entries
  = unique_entries
    ++ first_qualifying lower (bangla_word lower) s earlier glossary.
Proof.
  revert earlier seen unique_entries.
  induction glossary as [|entry glossary IH]; intros earlier seen acc Hseen.
  - simpl. by rewrite app_nil_r.
  - simpl. fold (bangla_word lower entry).
    fold (qualifies lower s (bangla_word lower entry)).
    assert (bool_decide (bangla_word lower entry ∈ seen)
            = qualified_before lower (bangla_word lower) s earlier
                (bangla_word lower entry)) as ->.
    { apply eq_true_iff_eq. rewrite bool_decide_eq_true. apply Hseen. }
    destruct (qualifies lower s (bangla_word lower entry)) eqn:Hq; simpl.
    + destruct (qualified_before lower (bangla_word lower) s earlier
                  (bangla_word lower entry)) eqn:Hb; simpl.
      * apply IH. intros w. rewrite Hseen, !qualified_before_spec.
        split.
        -- intros (e & Hin & He). exists e. split; [|done].
           apply elem_of_app. by left.
        -- intros (e & Hin & Hqe & Hk). apply elem_of_app in Hin as [Hin | Hin].
           ++ by exists e.
           ++ apply list_elem_of_singleton in Hin as ->.
              apply qualified_before_spec. by rewrite <- Hk.
      * rewrite (IH (earlier ++ [entry]) ({[bangla_word lower entry]} ∪ seen)).
        { by rewrite <- app_assoc. }
        intros w. rewrite elem_of_union, elem_of_singleton, Hseen.
        rewrite !qualified_before_spec. split.
        -- intros [-> | (e & Hin & He)].
           ++ exists entry. split; [|done]. apply elem_of_app. right.
              by apply list_elem_of_singleton.
           ++ exists e. split; [|done]. apply elem_of_app. by left.
        -- intros (e & Hin & Hqe & Hk). apply elem_of_app in Hin as [Hin | Hin].
           ++ right. by exists e.
           ++ apply list_elem_of_singleton in Hin as ->. by left.
    + apply IH. intros w. rewrite Hseen, !qualified_before_spec. split.
      * intros (e & Hin & He). exists e. split; [|done].
        apply elem_of_app. by left.
      * intros (e & Hin & Hqe & Hk). apply elem_of_app in Hin as [Hin | Hin].
        -- by exists e.
        -- apply list_elem_of_singleton in Hin as ->. congruence.
Qed.

Lemma first_qualifying_sublist key earlier glossary :
  sublist (first_qualifying lower key s earlier glossary) glossary.
Proof.
  revert earlier. induction glossary as [|entry glossary IH]; intros earlier.
  - constructor.
  - simpl. destruct (_ && _); [apply sublist_skip | apply sublist_cons]; apply IH.
Qed.

(** Whatever is kept qualifies and has a key no qualifying entry in front
    carries. *)
Lemma first_qualifying_elem key earlier glossary e :
  e ∈ first_qualifying lower key s earlier glossary ->
  qualifies lower s (key e) = true
  /\ qualified_before lower key s earlier (key e) = false.
Proof.
  revert earlier. induction glossary as [|entry glossary IH]; intros earlier.
  - simpl. intros Hin. by apply not_elem_of_nil in Hin.
  - simpl.
    assert (e ∈ first_qualifying lower key s (earlier ++ [entry]) glossary ->
            qualifies lower s (key e) = true
            /\ qualified_before lower key s earlier (key e) = false) as Hrest.
    { intros Hin. destruct (IH _ Hin) as [Hq Hb]. split; [done|].
      unfold qualified_before in *. rewrite existsb_app in Hb.
      by apply orb_false_iff in Hb as [Hb _]. }
    destruct (qualifies lower s (key entry)) eqn:Hq; simpl; [|done].
    destruct (qualified_before lower key s earlier (key entry)) eqn:Hb;
      simpl; [done|].
    intros [-> | Hin]%elem_of_cons; [done | by apply Hrest].
Qed.

Lemma first_qualifying_NoDup key earlier glossary :
  NoDup (map key (first_qualifying lower key s earlier glossary)).
Proof.
  revert earlier. induction glossary as [|entry glossary IH]; intros earlier.
  - constructor.
  - simpl. destruct (qualifies lower s (key entry)) eqn:Hq; simpl; [|apply IH].
    destruct (qualified_before lower key s earlier (key entry)) eqn:Hb;
      simpl; [apply IH|].
    constructor; [|apply IH].
    intros Hin. apply list_elem_of_fmap in Hin as (e & Hk & Hin).
    apply first_qualifying_elem in Hin as [_ Hbe].
    unfold qualified_before in Hbe. rewrite existsb_app in Hbe.
    apply orb_false_iff in Hbe as [_ Hbe]. simpl in Hbe.
    rewrite Hq, Hk in Hbe. simpl in Hbe.
    rewrite orb_false_r in Hbe. by apply bool_decide_eq_false in Hbe.
Qed.

End FilterProps.

(** C3, as the loop computes it: with the source word stripped and then
    lower-cased as the key, the filter keeps an entry iff the key is a
    token of the lower-cased sentence or a substring of it and no entry in
    front with the same key qualified; the output is in input order, every
    kept key is a substring of the lower-cased sentence, and no two kept
    entries share a key. *)
Theorem filter_glossary_stripped_key (lower : pystr -> pystr) (s : pystr)
    (G : list GlossaryEntry) :
  filter_glossary_contract lower (bangla_word lower) s G.
Proof.
  unfold filter_glossary_contract, filter_relevant_glossary, filter_glossary_spec.
  fold (token_set lower s).
  rewrite (filter_loop_spec lower s G [] ∅ []).
  2: { intros w. simpl. split; [intros Hw; by apply not_elem_of_empty in Hw | done]. }
  simpl. split_and!.
  - done.
  - apply first_qualifying_sublist.
  - apply Forall_forall. intros e He.
    apply first_qualifying_elem in He as [Hq _].
    by apply qualifies_substring.
  - apply first_qualifying_NoDup.
Qed.

(** C3, as the specification words it, with the source word only
    lower-cased: the entry "বই " with a trailing blank is kept for the
    sentence "বই", although "বই " is neither a token nor a substring of
    the sentence. *)
Lemma filter_glossary_lowered_key_fails :
  filter_relevant_glossary lower_ascii boi [boi_blank_entry] = [boi_blank_entry]
  /\ str_contains (lower_ascii boi) (lowered_word lower_ascii boi_blank_entry) = false
  /\ ~ filter_glossary_contract lower_ascii (lowered_word lower_ascii) boi
         [boi_blank_entry].
Proof.
  split_and!.
  - by vm_compute.
  - by vm_compute.
  - intros (Hout & _). vm_compute in Hout. discriminate Hout.
Qed.

(** The scenario of the specification: the glossary "বই" to "কিতাব" and the
    sentence "আমার বই আছে". *)
Example filter_glossary_scenario :
  filter_relevant_glossary lower_ascii amar_boi_ache [boi_entry] = [boi_entry].
Proof. by vm_compute. Qed.

(** ** Sorting by score *)

Section SortProps.

Context {A : Type}.
Implicit Types (x y : Qc * A) (l : list (Qc * A)).

Lemma insert_desc_perm x l : insert_desc x l ≡ₚ x :: l.
Proof.
  induction l as [|y l IH]; simpl; [done|].
  case_bool_decide; [|done].
  rewrite IH. apply Permutation_swap.
Qed.

Lemma sort_desc_perm l : sort_desc l ≡ₚ l.
Proof.
  induction l as [|x l IH]; simpl; [done|].
  by rewrite insert_desc_perm, IH.
Qed.

Lemma sort_desc_length l : length (sort_desc l) = length l.
Proof. apply Permutation_length, sort_desc_perm. Qed.

Lemma insert_desc_descending x l :
  descending l -> descending (insert_desc x l).
Proof.
  unfold descending. induction 1 as [|y l Hl IH Hy]; simpl.
  - repeat constructor.
  - case_bool_decide as Hlt.
    + constructor; [done|].
      rewrite insert_desc_perm. constructor; [|done].
      by apply Qclt_le_weak.
    + apply Qcnot_lt_le in Hlt.
      constructor; [by constructor|].
      constructor; [done|].
      eapply Forall_impl; [exact Hy|]. simpl. intros b Hb.
      by eapply Qcle_trans.
Qed.

Lemma sort_desc_descending l : descending (sort_desc l).
Proof.
  induction l as [|x l IH]; simpl; [constructor|].
  by apply insert_desc_descending.
Qed.

(** Stability: an insertion passes only entries of strictly larger score,
    so among the entries of one score nothing changes place. *)
Lemma insert_desc_with_score v x l :
  with_score v (insert_desc x l) = with_score v (x :: l).
Proof.
  induction l as [|y l IH]; simpl; [done|].
  case_bool_decide as Hlt; [|done].
  simpl. rewrite IH. simpl.
  destruct (bool_decide (x.1 = v)) eqn:Hx, (bool_decide (y.1 = v)) eqn:Hy;
    try done.
  apply bool_decide_eq_true in Hx, Hy. rewrite Hx, Hy in Hlt.
  by apply Qclt_not_eq in Hlt.
Qed.

Lemma sort_desc_with_score v l : with_score v (sort_desc l) = with_score v l.
Proof.
  induction l as [|x l IH]; simpl; [done|].
  rewrite insert_desc_with_score. simpl. by rewrite IH.
Qed.

(** An insertion moves an entry at most one place back. *)
Lemma insert_desc_take n x y l :
  y ∈ take n l -> y ∈ take (S n) (insert_desc x l).
Proof.
  revert n. induction l as [|z l IH]; intros n.
  - rewrite take_nil. intros Hin. by apply not_elem_of_nil in Hin.
  - simpl. case_bool_decide.
    + destruct n as [|n]; simpl.
      * intros Hin. by apply not_elem_of_nil in Hin.
      * intros [-> | Hin]%elem_of_cons; [by left|].
        right. by apply IH.
    + intros Hin. simpl. by right.
Qed.

(** An entry of largest score comes out no further back than it went in. *)
Lemma sort_desc_take_max l i x :
  l !! i = Some x -> Forall (fun y => (y.1 <= x.1)%Qc) l ->
  x ∈ take (S i) (sort_desc l).
Proof.
  revert i. induction l as [|y l IH]; intros i Hi Hmax; [done|].
  apply Forall_cons in Hmax as [Hy Hmax]. simpl.
  destruct i as [|i]; simpl in Hi.
  - injection Hi as ->.
    destruct (sort_desc l) as [|z l'] eqn:Hs; simpl; [by left|].
    assert (z ∈ l) as Hz.
    { rewrite <- (sort_desc_perm l), Hs. by left. }
    rewrite Forall_forall in Hmax. specialize (Hmax z Hz).
    case_bool_decide as Hlt; [|by left].
    by apply Qcle_not_lt in Hmax.
  - by apply insert_desc_take, IH.
Qed.

End SortProps.

(** ** Similarity *)

Lemma Q2Qc_le p q : (Q2Qc p <= Q2Qc q)%Qc <-> (p <= q)%Q.
Proof. unfold Qcle, Q2Qc. cbn [this]. by rewrite !Qred_correct. Qed.

Lemma Zpos_of_nat n : n <> 0 -> Z.pos (Pos.of_nat n) = Z.of_nat n.
Proof.
  intros Hn. rewrite <- (Nat2Pos.id n) at 2 by done.
  by rewrite positive_nat_Z.
Qed.

Lemma truediv_nonneg a b : (0 <= truediv a b)%Qc.
Proof.
  unfold truediv. apply Q2Qc_le. unfold Qle. simpl. lia.
Qed.

Lemma truediv_le_1 a b : a <= b -> b <> 0 -> (truediv a b <= 1)%Qc.
Proof.
  intros Hab Hb. unfold truediv. apply Q2Qc_le.
  unfold Qle. simpl. rewrite Zpos_of_nat by done. lia.
Qed.

Lemma truediv_same n : n <> 0 -> truediv n n = 1%Qc.
Proof.
  intros Hn. unfold truediv. apply Q2Qc_eq_iff.
  unfold Qeq. simpl. rewrite Zpos_of_nat by done. lia.
Qed.

Lemma truediv_0 b : truediv 0 b = 0%Qc.
Proof.
  unfold truediv. apply Q2Qc_eq_iff. unfold Qeq. simpl. lia.
Qed.

Lemma similarity_comm (I E : gset pystr) : similarity I E = similarity E I.
Proof.
  unfold similarity.
  by rewrite (comm_L (∩) I E), (comm_L (∪) I E).
Qed.

Lemma similarity_bounds (I E : gset pystr) : (0 <= similarity I E <= 1)%Qc.
Proof.
  unfold similarity. split; [apply truediv_nonneg|].
  apply truediv_le_1; [|lia].
  etrans; [|apply Nat.le_max_r].
  apply subseteq_size. intros w [Hw _]%elem_of_intersection.
  apply elem_of_union. by left.
Qed.

Lemma similarity_self (I : gset pystr) : I <> ∅ -> similarity I I = 1%Qc.
Proof.
  intros HI. unfold similarity.
  rewrite (idemp_L (∩) I), (idemp_L (∪) I).
  assert (size I <> 0) as Hs.
  { intros Hs. by apply size_empty_iff, leibniz_equiv in Hs. }
  rewrite Nat.max_r by lia. by apply truediv_same.
Qed.

Lemma similarity_empty_l (E : gset pystr) : similarity ∅ E = 0%Qc.
Proof.
  unfold similarity. rewrite (left_absorb_L ∅ (∩) E), size_empty.
  apply truediv_0.
Qed.

(** No example scores higher than one with the token set of the sentence. *)
Lemma similarity_self_max (I E : gset pystr) :
  (similarity I E <= similarity I I)%Qc.
Proof.
  destruct (decide (I = ∅)) as [-> | HI].
  - rewrite !similarity_empty_l. apply Qcle_refl.
  - rewrite (similarity_self I) by done. apply similarity_bounds.
Qed.

(** C6: the Jaccard similarity of the selector is symmetric, lies between
    0 and 1, is 1 on equal non-empty token sets and 0 when both token sets
    are empty. *)
Theorem similarity_jaccard (I E : gset pystr) :
  similarity I E = similarity E I
  /\ (0 <= similarity I E <= 1)%Qc
  /\ (I = E -> I <> ∅ -> similarity I E = 1%Qc)
  /\ (I = ∅ -> E = ∅ -> similarity I E = 0%Qc).
Proof.
  split_and!.
  - apply similarity_comm.
  - apply similarity_bounds.
  - apply similarity_bounds.
  - intros <- HI. by apply similarity_self.
  - intros -> _. apply similarity_empty_l.
Qed.

Lemma similarity_jaccard_witness :
  token_set lower_ascii amar_boi_ache <> ∅
  /\ similarity (token_set lower_ascii amar_boi_ache)
                (token_set lower_ascii amar_boi_ache) = 1%Qc
  /\ similarity (token_set lower_ascii space) (token_set lower_ascii []) = 0%Qc.
Proof.
  assert (token_set lower_ascii amar_boi_ache <> ∅) as Hne.
  { intros He. assert (amar ∈ token_set lower_ascii amar_boi_ache) as Hin.
    { apply elem_of_list_to_set.
      replace (tokenize_sentence (lower_ascii amar_boi_ache))
        with [amar; boi; ache] by (by vm_compute).
      by left. }
    rewrite He in Hin. by apply not_elem_of_empty in Hin. }
  split_and!.
  - exact Hne.
  - exact (proj1 (proj2 (proj2 (similarity_jaccard _ _))) eq_refl Hne).
  - exact (proj2 (proj2 (proj2 (similarity_jaccard
             (token_set lower_ascii space) (token_set lower_ascii []))))
             eq_refl eq_refl).
Defined.

(** C5: the sort of the scored examples is stable. The sorted list is a
    rearrangement of the scored pool with the scores descending, and for
    every score the examples that carry it stand in the sorted list, and so
    across the split into top tranche and remainder, in the order they have
    in the pool. *)
Theorem similarity_sort_stable (lower : pystr -> pystr) (s : pystr)
    (P : list Example) :
  map snd (score_examples lower s P) = P
  /\ scored_examples lower s P ≡ₚ score_examples lower s P
  /\ descending (scored_examples lower s P)
  /\ (forall v, with_score v (scored_examples lower s P)
                = with_score v (score_examples lower s P))
  /\ (forall k, top_examples lower s P k ++ remaining lower s P k
                = map snd (scored_examples lower s P)).
Proof.
  unfold scored_examples. split_and!.
  - unfold score_examples. rewrite map_map. simpl. apply map_id.
  - apply sort_desc_perm.
  - apply sort_desc_descending.
  - intros v. apply sort_desc_with_score.
  - intros k. unfold top_examples, remaining, scored_examples.
    by rewrite <- map_app, take_drop.
Qed.

(** ** The random generator *)

Lemma randbelow_ok n g :
  0 < n -> exists j g', randbelow n g = (Ok j, g') /\ j < n.
Proof.
  intros Hn. destruct g as [|r g]; simpl.
  - by exists 0, [].
  - exists (r mod n), g. split; [done|]. apply Nat.mod_upper_bound. lia.
Qed.

(** [k] draws from a pool of at least [k] elements succeed and deliver [k]
    of its elements. *)
Lemma draw_ok {A} k (pool : list A) g :
  k <= length pool ->
  exists out g', draw k pool g = (Ok out, g')
    /\ length out = k /\ exists rest, pool ≡ₚ out ++ rest.
Proof.
  revert pool g. induction k as [|k IH]; intros pool g Hk.
  - exists [], g. split_and!; [done | done | by exists pool].
  - simpl. unfold bind at 1.
    destruct (randbelow_ok (length pool) g) as (j & g1 & -> & Hj); [lia|].
    destruct (lookup_lt_is_Some_2 pool j Hj) as [x Hx]. rewrite Hx.
    unfold bind at 1.
    destruct (IH (delete j pool) g1) as (out & g2 & -> & Hlen & rest & Hperm).
    { rewrite length_delete by eauto. lia. }
    exists (x :: out), g2. split_and!; [done | simpl; lia |].
    exists rest. rewrite (delete_Permutation pool j x) by done.
    simpl. by rewrite Hperm.
Qed.

Lemma random_sample_ok {A} (population : list A) k g :
  (0 <= k <= Z.of_nat (length population))%Z ->
  exists out g', random_sample population k g = (Ok out, g')
    /\ length out = Z.to_nat k /\ exists rest, population ≡ₚ out ++ rest.
Proof.
  intros Hk. unfold random_sample. rewrite bool_decide_eq_true_2 by done.
  apply draw_ok. lia.
Qed.

Lemma random_sample_raises {A} (population : list A) k g :
  ~ (0 <= k <= Z.of_nat (length population))%Z ->
  random_sample population k g = (Raise ValueError, g).
Proof.
  intros Hk. unfold random_sample. by rewrite bool_decide_eq_false_2.
Qed.

Lemma random_shuffle_ok {A} (x : list A) g :
  exists out g', random_shuffle x g = (Ok out, g') /\ out ≡ₚ x.
Proof.
  unfold random_shuffle.
  destruct (draw_ok (length x) x g) as (out & g' & -> & Hlen & rest & Hperm);
    [done|].
  exists out, g'. split; [done|].
  assert (rest = []) as ->.
  { apply Permutation_length in Hperm. rewrite length_app in Hperm.
    apply nil_length_inv. lia. }
  by rewrite app_nil_r in Hperm.
Qed.

(** ** Example selector *)

Lemma top_n_spec k : top_n k = spec_top_n k.
Proof.
  unfold top_n, spec_top_n, int_times_0_6.
  destruct (Z.le_gt_cases 0 k) as [Hk | Hk].
  - by rewrite Z.quot_div_nonneg by lia.
  - assert (3 * k ÷ 5 <= 0)%Z as Hq by (apply Z.quot_le_upper_bound; lia).
    assert (3 * k / 5 < 0)%Z as Hd by (apply Z.div_lt_upper_bound; lia).
    f_equal. lia.
Qed.

Lemma spec_top_n_bounds k :
  1 <= spec_top_n k /\ ((1 <= k)%Z -> (Z.of_nat (spec_top_n k) <= k)%Z).
Proof.
  unfold spec_top_n. split; [lia|]. intros Hk.
  assert (3 * k / 5 <= k)%Z by (apply Z.div_le_upper_bound; lia). lia.
Qed.

Section SelectProps.

Variable lower : pystr -> pystr.
Variable s : pystr.
Variable P : list Example.

Lemma scored_examples_length : length (scored_examples lower s P) = length P.
Proof.
  unfold scored_examples, score_examples.
  by rewrite sort_desc_length, length_map.
Qed.

Lemma top_examples_length k :
  length (top_examples lower s P k) = Nat.min (top_n k) (length P).
Proof.
  unfold top_examples. by rewrite length_map, length_take, scored_examples_length.
Qed.

Lemma remaining_length k :
  length (remaining lower s P k) = length P - top_n k.
Proof.
  unfold remaining. by rewrite length_map, length_drop, scored_examples_length.
Qed.

Lemma top_examples_remaining k :
  top_examples lower s P k ++ remaining lower s P k ≡ₚ P.
Proof.
  unfold top_examples, remaining. rewrite <- map_app, take_drop.
  unfold scored_examples. rewrite sort_desc_perm.
  unfold score_examples. rewrite map_map. simpl. by rewrite map_id.
Qed.

(** A pool that is not larger than the request is returned as it is, and
    the generator is not consulted. *)
Lemma select_small k g :
  (Z.of_nat (length P) <= k)%Z ->
  select_fewshot_examples lower s P k g = (Ok P, g).
Proof.
  intros Hk. unfold select_fewshot_examples.
  by rewrite bool_decide_eq_true_2.
Qed.

(** From a larger pool, a request for at least one example is served with
    the top tranche and [k - top_n k] of the remaining examples, in some
    order. *)
Lemma select_large k g :
  (1 <= k < Z.of_nat (length P))%Z ->
  exists out g' others rest,
    select_fewshot_examples lower s P k g = (Ok out, g')
    /\ out ≡ₚ top_examples lower s P k ++ others
    /\ length (top_examples lower s P k) = top_n k
    /\ Z.of_nat (length others) = (k - Z.of_nat (top_n k))%Z
    /\ remaining lower s P k ≡ₚ others ++ rest.
Proof.
  intros Hk. unfold select_fewshot_examples.
  rewrite bool_decide_eq_false_2 by lia.
  pose proof (spec_top_n_bounds k) as [Hn1 Hn2]. rewrite <- top_n_spec in *.
  assert (length (top_examples lower s P k) = top_n k) as Htop.
  { rewrite top_examples_length. lia. }
  pose proof (remaining_length k) as Hrem.
  unfold bind.
  destruct (random_sample_ok (remaining lower s P k)
              (Z.min (Z.of_nat (length (remaining lower s P k)))
                     (k - Z.of_nat (length (top_examples lower s P k)))) g)
    as (others & g1 & -> & Hlen & rest & Hperm); [lia|].
  destruct (random_shuffle_ok (top_examples lower s P k ++ others) g1)
    as (out & g2 & -> & Hout).
  exists out, g2, others, rest. split_and!; try done. lia.
Qed.

(** From a larger pool, a request for no example, or for a negative number
    of them, makes the sample size negative, and [random.sample] raises. *)
Lemma select_nonpositive_raises k g :
  (k <= 0)%Z -> (k < Z.of_nat (length P))%Z ->
  select_fewshot_examples lower s P k g = (Raise ValueError, g).
Proof.
  intros Hk Hlen. unfold select_fewshot_examples.
  rewrite bool_decide_eq_false_2 by lia.
  unfold bind. rewrite random_sample_raises; [done|].
  rewrite top_examples_length, remaining_length.
  assert (top_n k = 1) as ->.
  { rewrite top_n_spec. unfold spec_top_n.
    assert (3 * k / 5 <= 0)%Z by (apply Z.div_le_upper_bound; lia). lia. }
  destruct P as [|e P']; simpl in *; lia.
Qed.

End SelectProps.

Section ScoreProps.

Variable lower : pystr -> pystr.
Variable s : pystr.

Lemma score_examples_lookup (P : list Example) i e :
  P !! i = Some e ->
  score_examples lower s P !! i
  = Some (similarity (token_set lower s) (token_set lower (bangla_speech e)), e).
Proof.
  unfold score_examples. revert i.
  induction P as [|e' P IH]; intros i Hi; [done|].
  destruct i as [|i]; simpl in *; [by injection Hi as -> | by apply IH].
Qed.

Lemma score_examples_max (P : list Example) :
  Forall (fun p => (p.1 <= similarity (token_set lower s) (token_set lower s))%Qc)
         (score_examples lower s P).
Proof.
  unfold score_examples. induction P as [|e P IH]; simpl; constructor;
    [apply similarity_self_max | done].
Qed.

(** An example whose source sentence is the input sentence stands in the
    sorted list no further back than in the pool. *)
Lemma identical_sentence_rank (P : list Example) i e k :
  P !! i = Some e -> bangla_speech e = s -> i < top_n k ->
  e ∈ top_examples lower s P k.
Proof.
  intros Hi Hs Hik. unfold top_examples, scored_examples.
  apply (list_elem_of_fmap_2 snd _
           (similarity (token_set lower s) (token_set lower (bangla_speech e)), e)).
  assert ((similarity (token_set lower s) (token_set lower (bangla_speech e)), e)
          ∈ take (S i) (sort_desc (score_examples lower s P))) as Hin.
  { apply sort_desc_take_max; [by apply score_examples_lookup|].
    simpl. rewrite Hs. apply score_examples_max. }
  apply elem_of_take in Hin as (j & Hj & Hji).
  apply elem_of_take. exists j. split; [done | lia].
Qed.

End ScoreProps.

(** C1, for a request of at least one example: from a pool larger than
    [k], whatever the generator draws, the selection returns at most [k]
    and at least [max(1, floor(0.6 k))] examples, and the whole top
    tranche, the first [max(1, floor(0.6 k))] examples of the
    similarity-descending order, is among them. *)
Theorem selection_bounds_positive (lower : pystr -> pystr) (s : pystr)
    (P : list Example) (k : Z) :
  (1 <= k)%Z -> (k < Z.of_nat (length P))%Z -> selection_bounds lower s P k.
Proof.
  intros Hk HP g.
  destruct (select_large lower s P k g)
    as (out & g' & others & rest & Hsel & Hperm & Htop & Hothers & _); [lia|].
  unfold top_tranche. rewrite <- top_n_spec. fold (top_examples lower s P k).
  exists out, g'. split_and!; try done.
  - apply Permutation_length in Hperm. rewrite length_app in Hperm. lia.
  - apply Permutation_length in Hperm. rewrite length_app in Hperm. lia.
  - by exists others.
Qed.

Lemma selection_bounds_positive_witness :
  selection_bounds lower_ascii amar_boi_ache pool10 5.
Proof.
  apply (selection_bounds_positive lower_ascii amar_boi_ache pool10 5).
  - lia.
  - simpl. lia.
Defined.

(** C1 as stated, for every [k]: a pool of one example is larger than
    [k = 0], and the call raises instead of returning a selection. *)
Lemma selection_bounds_zero_fails :
  (0 < Z.of_nat (length [example_of boi]))%Z
  /\ ~ selection_bounds lower_ascii boi [example_of boi] 0.
Proof.
  split; [simpl; lia|].
  intros H. destruct (H []) as (out & g' & Hsel & _).
  rewrite select_nonpositive_raises in Hsel by (simpl; lia).
  discriminate Hsel.
Qed.

(** C2, at a request for zero examples from a pool of one: the sample size
    is [min(0, 0 - 1) = -1] and the call raises [ValueError], whatever the
    state of the generator. *)
Theorem select_zero_raises (g : tape) :
  select_fewshot_examples lower_ascii boi [example_of boi] 0 g
  = (Raise ValueError, g).
Proof. apply select_nonpositive_raises; simpl; lia. Qed.

(** C4: a pool of at most [k] examples is returned as it is, the same
    elements in the same order, and the generator is left untouched. *)
Theorem select_returns_pool (lower : pystr -> pystr) (s : pystr)
    (P : list Example) (k : Z) (g : tape) :
  (Z.of_nat (length P) <= k)%Z ->
  select_fewshot_examples lower s P k g = (Ok P, g).
Proof. apply select_small. Qed.

Lemma select_returns_pool_witness :
  select_fewshot_examples lower_ascii amar_boi_ache pool3 5 [4; 1; 7]
  = (Ok pool3, [4; 1; 7]).
Proof.
  apply (select_returns_pool lower_ascii amar_boi_ache pool3 5 [4; 1; 7]).
  simpl. lia.
Defined.

(** C10: for [k >= 1] the selection returns exactly [min(len(P), k)]
    examples; when the pool is larger than [k], the remaining tranche holds
    at least [k - top_n] examples, so the sample is never cut short. *)
Theorem select_exact_count (lower : pystr -> pystr) (s : pystr)
    (P : list Example) (k : Z) (g : tape) :
  (1 <= k)%Z ->
  (exists out g',
     select_fewshot_examples lower s P k g = (Ok out, g')
     /\ length out = Nat.min (length P) (Z.to_nat k))
  /\ ((k < Z.of_nat (length P))%Z ->
      (k - Z.of_nat (length (top_examples lower s P k))
       <= Z.of_nat (length (remaining lower s P k)))%Z).
Proof.
  intros Hk. split.
  - destruct (Z.le_gt_cases (Z.of_nat (length P)) k) as [Hsmall | Hlarge].
    + exists P, g. split; [by apply select_small | lia].
    + destruct (select_large lower s P k g)
        as (out & g' & others & rest & Hsel & Hperm & Htop & Hothers & _); [lia|].
      exists out, g'. split; [done|].
      apply Permutation_length in Hperm. rewrite length_app in Hperm. lia.
  - intros Hlarge. rewrite top_examples_length, remaining_length.
    pose proof (spec_top_n_bounds k) as [Hn1 Hn2]. rewrite <- top_n_spec in *.
    lia.
Qed.

Lemma select_exact_count_witness :
  (exists out g',
     select_fewshot_examples lower_ascii amar_boi_ache pool10 5 [2; 7; 1; 8] = (Ok out, g')
     /\ length out = Nat.min (length pool10) (Z.to_nat 5))
  /\ ((5 < Z.of_nat (length pool10))%Z ->
      (5 - Z.of_nat (length (top_examples lower_ascii amar_boi_ache pool10 5))
       <= Z.of_nat (length (remaining lower_ascii amar_boi_ache pool10 5)))%Z).
Proof.
  apply (select_exact_count lower_ascii amar_boi_ache pool10 5 [2; 7; 1; 8]).
  lia.
Defined.

(** The scenario of the specification: a pool of three and [k = 5]. *)
Example select_pool3 (g : tape) :
  select_fewshot_examples lower_ascii amar_boi_ache pool3 5 g = (Ok pool3, g).
Proof. reflexivity. Qed.

(** A run of the selector on the pool of ten: the three best matches and
    two of the others, shuffled. *)
Example select_pool10 :
  fst (select_fewshot_examples lower_ascii amar_boi_ache pool10 5 [3; 1; 4; 1; 5; 9; 2])
  = Ok [example_of boi; example_of (amar ++ space ++ boi);
        example_of (kitab ++ space ++ boi); example_of (boi ++ space ++ ache);
        example_of amar_boi_ache].
Proof. by vm_compute. Qed.

(** The place in the pool matters for the tranche: of four examples with
    the sentence as source, all of score 1, the stable sort keeps the first
    three in front, and the fourth is returned only if the sample draws
    it. *)
Example fourth_tied_example_left_out :
  top_examples lower_ascii boi tied_pool 5 = [boi_to kitab; boi_to amar; boi_to ache]
  /\ fst (select_fewshot_examples lower_ascii boi tied_pool 5 [1; 1; 0; 0; 0])
     = Ok [boi_to kitab; boi_to amar; boi_to ache; example_of amar_boi_ache;
           example_of amar].
Proof. split; by vm_compute. Qed.

(** ** Prompt composer *)

Lemma substring_refl w : substring w w.
Proof. exists [], []. by rewrite app_nil_r. Qed.

Lemma substring_app_l w a b : substring w a -> substring w (a ++ b).
Proof.
  intros (pre & post & ->). exists pre, (post ++ b). by rewrite <- !app_assoc.
Qed.

Lemma substring_app_r w a b : substring w b -> substring w (a ++ b).
Proof.
  intros (pre & post & ->). exists (a ++ pre), post. by rewrite <- !app_assoc.
Qed.

(** The loop appends one item per element, numbered from [i] on. *)
Lemma append_items_concat {A} (item : nat -> A -> pystr) i xs text :
  append_items item i xs text
  = text ++ concat (imap (fun j x => item (i + j) x) xs).
Proof.
  revert i text. induction xs as [|x xs IH]; intros i text; simpl.
  - by rewrite app_nil_r.
  - rewrite IH, <- app_assoc, Nat.add_0_r. do 3 f_equal.
    apply imap_ext. intros j y _. simpl. f_equal. lia.
Qed.

Lemma substring_concat_imap {A} (f : nat -> A -> pystr) xs i x :
  xs !! i = Some x -> substring (f i x) (concat (imap f xs)).
Proof.
  revert f i. induction xs as [|y xs IH]; intros f i Hi; [done|].
  simpl. destruct i as [|i]; simpl in Hi.
  - injection Hi as ->. apply substring_app_l, substring_refl.
  - apply substring_app_r. by apply (IH (f ∘ S)).
Qed.

Lemma construct_prompt_layout s exs gl :
  construct_prompt s exs gl
  = system_instructions ++ nl ++ nl
    ++ (lit "Few-shot examples:" ++ nl
        ++ concat (imap (fun i ex => example_item (S i) ex) exs))
    ++ nl
    ++ (lit "Glossary:" ++ nl
        ++ concat (imap (fun i en => glossary_item (S i) en) gl))
    ++ nl ++ nl
    ++ (lit "Bangla: " ++ s ++ nl ++ lit "Sylheti:").
Proof.
  unfold construct_prompt. rewrite !append_items_concat.
  by rewrite <- !app_assoc.
Qed.

(** C9: with no examples and no glossary the prompt is not empty and
    contains the instructions and the echoed sentence; in general the
    prompt is the instructions, one item per example, one item per
    glossary entry and the echo, so that every example and every entry is
    rendered whatever its strings are, an empty string as nothing between
    its label and the line end. *)
Theorem construct_prompt_renders (s : pystr) :
  (construct_prompt s [] [] <> []
   /\ substring system_instructions (construct_prompt s [] [])
   /\ substring (lit "Bangla: " ++ s ++ nl ++ lit "Sylheti:")
                (construct_prompt s [] [])
   /\ substring s (construct_prompt s [] []))
  /\ (forall exs gl,
        construct_prompt s exs gl
        = system_instructions ++ nl ++ nl
          ++ (lit "Few-shot examples:" ++ nl
              ++ concat (imap (fun i ex => example_item (S i) ex) exs))
          ++ nl
          ++ (lit "Glossary:" ++ nl
              ++ concat (imap (fun i en => glossary_item (S i) en) gl))
          ++ nl ++ nl
          ++ (lit "Bangla: " ++ s ++ nl ++ lit "Sylheti:"))
  /\ (forall exs gl i ex,
        exs !! i = Some ex ->
        substring (example_item (S i) ex) (construct_prompt s exs gl))
  /\ (forall exs gl i en,
        gl !! i = Some en ->
        substring (glossary_item (S i) en) (construct_prompt s exs gl))
  /\ (forall i,
        example_item i empty_example
        = str_of_nat i ++ lit ". Bangla: " ++ nl ++ lit "   Sylheti: " ++ nl ++ nl)
  /\ (forall i,
        glossary_item i empty_entry
        = str_of_nat i ++ lit ". Bangla: " ++ [32; 8594; 32]%N
          ++ lit "Sylheti: " ++ nl).
Proof.
  split_and!.
  - rewrite construct_prompt_layout. discriminate.
  - rewrite construct_prompt_layout. apply substring_app_l, substring_refl.
  - rewrite construct_prompt_layout.
    do 8 apply substring_app_r. apply substring_refl.
  - rewrite construct_prompt_layout.
    do 9 apply substring_app_r. apply substring_app_l, substring_refl.
  - apply construct_prompt_layout.
  - intros exs gl i ex Hi. rewrite construct_prompt_layout.
    do 3 apply substring_app_r. apply substring_app_l.
    do 2 apply substring_app_r.
    by apply (substring_concat_imap (fun i ex => example_item (S i) ex)).
  - intros exs gl i en Hi. rewrite construct_prompt_layout.
    do 5 apply substring_app_r. apply substring_app_l.
    do 2 apply substring_app_r.
    by apply (substring_concat_imap (fun i en => glossary_item (S i) en)).
  - done.
  - done.
Qed.

Lemma construct_prompt_renders_witness :
  substring (lit "1. Bangla: " ++ nl ++ lit "   Sylheti: " ++ nl ++ nl)
            (construct_prompt amar_boi_ache [empty_example] [empty_entry])
  /\ substring (lit "1. Bangla: " ++ [32; 8594; 32]%N ++ lit "Sylheti: " ++ nl)
               (construct_prompt amar_boi_ache [empty_example] [empty_entry]).
Proof.
  destruct (construct_prompt_renders amar_boi_ache)
    as (_ & _ & Hex & Hgl & _ & _).
  split.
  - exact (Hex [empty_example] [empty_entry] 0 empty_example eq_refl).
  - exact (Hgl [empty_example] [empty_entry] 0 empty_entry eq_refl).
Defined.

(** The prompt for a sentence alone. *)
Example construct_prompt_empty (s : pystr) :
  construct_prompt s [] []
  = system_instructions ++ nl ++ nl ++ lit "Few-shot examples:" ++ nl ++ nl
    ++ lit "Glossary:" ++ nl ++ nl ++ nl ++ lit "Bangla: " ++ s ++ nl
    ++ lit "Sylheti:".
Proof.
  rewrite construct_prompt_layout. cbn [imap concat].
  by rewrite !app_nil_r, <- !app_assoc.
Qed.

(** * Further properties of the code *)

(** ** [str.strip] *)

Lemma lstrip_clean t : starts_clean (lstrip t).
Proof.
  induction t as [|c t IH]; simpl; [done|].
  destruct (isspace c) eqn:Hc; [done | exact Hc].
Qed.

Lemma lstrip_fixed t : starts_clean t -> lstrip t = t.
Proof. destruct t as [|c t]; simpl; [done|]. by intros ->. Qed.

Lemma lstrip_suffix t : exists sp, t = sp ++ lstrip t.
Proof.
  induction t as [|c t [sp IH]]; simpl; [by exists []|].
  destruct (isspace c); [|by exists []].
  exists (c :: sp). simpl. by rewrite <- IH.
Qed.

Lemma rstrip_prefix t : exists sp, t = rstrip t ++ sp.
Proof.
  unfold rstrip. destruct (lstrip_suffix (rev t)) as [sp Hsp].
  exists (rev sp). rewrite <- rev_app_distr, <- Hsp. by rewrite rev_involutive.
Qed.

Lemma rstrip_clean_end t : starts_clean (rev (rstrip t)).
Proof. unfold rstrip. rewrite rev_involutive. apply lstrip_clean. Qed.

Lemma rstrip_keeps_clean t : starts_clean t -> starts_clean (rstrip t).
Proof.
  intros Ht. destruct (rstrip_prefix t) as [sp Hsp].
  destruct (rstrip t) as [|c u]; [done|].
  rewrite Hsp in Ht. exact Ht.
Qed.

Lemma rstrip_fixed t : starts_clean (rev t) -> rstrip t = t.
Proof.
  intros Ht. unfold rstrip. rewrite lstrip_fixed by done. apply rev_involutive.
Qed.

Lemma strip_stripped t : stripped (strip t).
Proof.
  unfold stripped, strip. split.
  - apply rstrip_keeps_clean, lstrip_clean.
  - apply rstrip_clean_end.
Qed.

Lemma strip_fixed t : stripped t -> strip t = t.
Proof.
  intros [Hl Hr]. unfold strip. rewrite (lstrip_fixed t) by done.
  by apply rstrip_fixed.
Qed.

Lemma strip_idemp t : strip (strip t) = strip t.
Proof. apply strip_fixed, strip_stripped. Qed.

(** ** Glossary filter, continued *)

Lemma existsb_ext_elem {A} (f g : A -> bool) l :
  (forall x, x ∈ l -> f x = g x) -> existsb f l = existsb g l.
Proof.
  induction l as [|x l IH]; intros Hfg; simpl; [done|].
  rewrite (Hfg x) by (by left). rewrite IH; [done|].
  intros y Hy. apply Hfg. by right.
Qed.

Section FilterMore.

Variable lower : pystr -> pystr.
Variable s : pystr.

Lemma filter_relevant_glossary_first G :
  filter_relevant_glossary lower s G
  = first_qualifying lower (bangla_word lower) s [] G.
Proof.
  unfold filter_relevant_glossary. fold (token_set lower s).
  rewrite (filter_loop_spec lower s G [] ∅ []); [done|].
  intros w. simpl. split; [intros Hw; by apply not_elem_of_empty in Hw | done].
Qed.

(** A qualifying entry is kept, or its key is carried by a qualifying
    entry in front or by a kept one. *)
Lemma first_qualifying_complete key earlier G e :
  e ∈ G -> qualifies lower s (key e) = true ->
  qualified_before lower key s earlier (key e) = true
  \/ exists e', e' ∈ first_qualifying lower key s earlier G /\ key e' = key e.
Proof.
  revert earlier. induction G as [|x G IH]; intros earlier Hin Hq.
  - by apply not_elem_of_nil in Hin.
  - simpl.
    destruct (qualified_before lower key s earlier (key e)) eqn:Hb; [by left|].
    right. apply elem_of_cons in Hin as [-> | Hin].
    + rewrite Hq, Hb. simpl. exists x. split; [by left | done].
    + destruct (IH (earlier ++ [x]) Hin Hq) as [Hbx | (e' & He' & Hk)].
      * unfold qualified_before in Hbx, Hb. rewrite existsb_app, Hb in Hbx.
        simpl in Hbx. rewrite orb_false_r in Hbx.
        apply andb_true_iff in Hbx as [Hqx Hkx].
        apply bool_decide_eq_true in Hkx.
        rewrite Hqx. rewrite <- Hkx in Hb. unfold qualified_before. rewrite Hb.
        simpl. exists x. split; [by left | done].
      * exists e'. split; [|done].
        destruct (_ && _); [by right | done].
Qed.

(** A list of qualifying entries with distinct keys, none of them
    qualified before, passes unchanged. *)
Lemma first_qualifying_fixed key earlier l :
  Forall (fun e => qualifies lower s (key e) = true
                   /\ qualified_before lower key s earlier (key e) = false) l ->
  NoDup (map key l) ->
  first_qualifying lower key s earlier l = l.
Proof.
  revert earlier. induction l as [|x l IH]; intros earlier Hall Hnd; [done|].
  apply Forall_cons in Hall as [[Hq Hb] Hall].
  apply NoDup_cons in Hnd as [Hx Hnd].
  simpl. rewrite Hq, Hb. simpl. f_equal. apply IH; [|done].
  apply Forall_forall. intros e He.
  rewrite Forall_forall in Hall. destruct (Hall e He) as [Hqe Hbe].
  split; [done|]. unfold qualified_before in *. rewrite existsb_app, Hbe.
  simpl. rewrite orb_false_r. apply andb_false_iff. right.
  apply bool_decide_eq_false. intros Hk. apply Hx.
  rewrite Hk. by apply (list_elem_of_fmap_2 key).
Qed.

(** Entries with the same keys are filtered alike. *)
Lemma first_qualifying_ext key1 key2 earlier G :
  (forall e, e ∈ earlier ++ G -> key1 e = key2 e) ->
  first_qualifying lower key1 s earlier G
  = first_qualifying lower key2 s earlier G.
Proof.
  revert earlier. induction G as [|x G IH]; intros earlier Hk; [done|].
  simpl.
  assert (key1 x = key2 x) as Hx.
  { apply Hk, elem_of_app. right. by left. }
  assert (qualified_before lower key1 s earlier (key1 x)
          = qualified_before lower key2 s earlier (key2 x)) as Hb.
  { unfold qualified_before. rewrite <- Hx.
    apply existsb_ext_elem. intros e He.
    rewrite (Hk e); [done|]. apply elem_of_app. by left. }
  rewrite Hb, Hx, IH; [done|].
  intros e He. apply Hk. rewrite <- app_assoc in He. exact He.
Qed.

End FilterMore.

(** X1: deduplication loses no word. For every entry of the glossary whose
    stripped, lower-cased source word occurs in the lower-cased sentence,
    the filter returns an entry with that same word. *)
Theorem filter_keeps_every_word (lower : pystr -> pystr) (s : pystr)
    (G : list GlossaryEntry) (e : GlossaryEntry) :
  e ∈ G -> substring (bangla_word lower e) (lower s) ->
  exists e', e' ∈ filter_relevant_glossary lower s G
             /\ bangla_word lower e' = bangla_word lower e.
Proof.
  intros He Hsub. rewrite filter_relevant_glossary_first.
  apply qualifies_substring in Hsub.
  destruct (first_qualifying_complete lower s (bangla_word lower) [] G e He Hsub)
    as [Hb | Hex]; [discriminate Hb | exact Hex].
Qed.

Lemma filter_keeps_every_word_witness :
  exists e', e' ∈ filter_relevant_glossary lower_ascii amar_boi_ache
                    [boi_blank_entry; boi_entry]
             /\ bangla_word lower_ascii e' = bangla_word lower_ascii boi_entry.
Proof.
  apply (filter_keeps_every_word lower_ascii amar_boi_ache
           [boi_blank_entry; boi_entry] boi_entry).
  - right. by left.
  - exists (amar ++ space), (space ++ ache). by vm_compute.
Defined.

(** X2: filtering is idempotent: the filter returns its own output
    unchanged. *)
Theorem filter_idempotent (lower : pystr -> pystr) (s : pystr)
    (G : list GlossaryEntry) :
  filter_relevant_glossary lower s (filter_relevant_glossary lower s G)
  = filter_relevant_glossary lower s G.
Proof.
  rewrite (filter_relevant_glossary_first lower s
             (filter_relevant_glossary lower s G)).
  rewrite (filter_relevant_glossary_first lower s G).
  apply first_qualifying_fixed.
  - apply Forall_forall. intros e He.
    apply first_qualifying_elem in He as [Hq _]. by split.
  - apply first_qualifying_NoDup.
Qed.

(** X3: an entry whose source word is blank, empty after [strip] and
    [lower], matches every sentence, since the empty string is a substring
    of every string: if the glossary has such an entry, the filter returns
    one, whatever the sentence. *)
Theorem filter_keeps_blank_word (lower : pystr -> pystr) (s : pystr)
    (G : list GlossaryEntry) (e : GlossaryEntry) :
  e ∈ G -> bangla_word lower e = [] ->
  exists e', e' ∈ filter_relevant_glossary lower s G /\ bangla_word lower e' = [].
Proof.
  intros He Hblank. rewrite filter_relevant_glossary_first.
  assert (qualifies lower s (bangla_word lower e) = true) as Hq.
  { apply qualifies_substring. rewrite Hblank. by exists [], (lower s). }
  destruct (first_qualifying_complete lower s (bangla_word lower) [] G e He Hq)
    as [Hb | (e' & He' & Hk)]; [discriminate Hb|].
  exists e'. split; [done|]. by rewrite Hk.
Qed.

Lemma filter_keeps_blank_word_witness :
  exists e', e' ∈ filter_relevant_glossary lower_ascii (lit "no script here")
                    [boi_entry; blank_entry]
             /\ bangla_word lower_ascii e' = [].
Proof.
  apply (filter_keeps_blank_word lower_ascii (lit "no script here")
           [boi_entry; blank_entry] blank_entry).
  - right. by left.
  - reflexivity.
Defined.

(** ** Loading the glossary *)

Lemma load_rows_app rows acc glossary :
  load_rows rows acc = Some glossary ->
  exists new, glossary = acc ++ new
    /\ Forall fields_stripped new /\ length new <= length rows.
Proof.
  revert acc. induction rows as [|r rows IH]; intros acc; cbn [load_rows].
  - intros [= <-]. exists []. by rewrite app_nil_r.
  - assert (load_rows rows acc = Some glossary ->
            exists new, glossary = acc ++ new
              /\ Forall fields_stripped new /\ length new <= S (length rows))
      as Hskip.
    { intros H. destruct (IH _ H) as (new & -> & Hs & Hl).
      exists new. split_and!; [done | done | lia]. }
    destruct (r !! lit "ben") as [[b|]|]; destruct (r !! lit "syl") as [[y|]|];
      try done.
    intros H. destruct (IH _ H) as (new & -> & Hs & Hl).
    exists ({| bangla := strip b; sylheti := strip y |} :: new).
    rewrite <- app_assoc. split_and!; [done | | simpl; lia].
    constructor; [|done]. split; apply strip_stripped.
Qed.

Lemma load_rows_raises pre r post acc vb vs :
  r !! lit "ben" = Some vb -> r !! lit "syl" = Some vs ->
  vb = None \/ vs = None ->
  load_rows (pre ++ r :: post) acc = None.
Proof.
  intros Hb Hs Hnone. revert acc.
  induction pre as [|p pre IH]; intros acc; cbn [load_rows app].
  - rewrite Hb, Hs. destruct Hnone as [-> | ->]; [done | by destruct vb].
  - destruct (p !! lit "ben") as [[b|]|]; destruct (p !! lit "syl") as [[y|]|];
      try done; apply IH.
Qed.

(** X4: a glossary file with one line that is too short is lost as a
    whole. If some row has both columns and an absent field, [load_glossary]
    returns the empty glossary, also when every other row is sound. *)
Theorem load_glossary_short_row (pre post : list row) (r : row)
    (vb vs : option pystr) :
  r !! lit "ben" = Some vb -> r !! lit "syl" = Some vs ->
  vb = None \/ vs = None ->
  load_glossary (Delivered (pre ++ r :: post)) = [].
Proof.
  intros Hb Hs Hnone. unfold load_glossary.
  by rewrite (load_rows_raises pre r post [] vb vs).
Qed.

Lemma load_glossary_short_row_witness :
  load_glossary (Delivered ([boi_row] ++ short_row :: [boi_row])) = [].
Proof.
  apply (load_glossary_short_row [boi_row] [boi_row] short_row (Some amar) None).
  - by vm_compute.
  - by vm_compute.
  - by right.
Defined.

Lemma load_glossary_stripped_fields (csv : read (list row)) :
  Forall (fun e => stripped (bangla e)) (load_glossary csv).
Proof.
  destruct csv as [rows|]; simpl; [|constructor].
  destruct (load_rows rows []) as [glossary|] eqn:H; [|constructor].
  destruct (load_rows_app _ _ _ H) as (new & -> & Hs & _). simpl.
  eapply Forall_impl; [exact Hs|]. by intros e [Hb _].
Qed.

(** X5: whatever the file holds, the glossary that [load_glossary] returns
    has no white space around any source or target word, and no more
    entries than the file has rows. *)
Theorem load_glossary_stripped (csv : read (list row)) :
  Forall fields_stripped (load_glossary csv)
  /\ length (load_glossary csv)
     <= match csv with Delivered rows => length rows | ReadError => 0 end.
Proof.
  destruct csv as [rows|]; simpl; [|split; [constructor | done]].
  destruct (load_rows rows []) as [glossary|] eqn:H.
  - destruct (load_rows_app _ _ _ H) as (new & -> & Hs & Hl). by split.
  - split; [constructor | simpl; lia].
Qed.

(** X6: on a glossary that [load_glossary] returned, stripping in the
    filter changes nothing, and the filter meets the contract of the
    specification with the source word only lower-cased as the key. *)
Theorem filter_loaded_glossary (lower : pystr -> pystr) (s : pystr)
    (csv : read (list row)) :
  filter_glossary_contract lower (lowered_word lower) s (load_glossary csv).
Proof.
  pose proof (load_glossary_stripped_fields csv) as Hs.
  set (G := load_glossary csv) in *.
  assert (filter_relevant_glossary lower s G
          = first_qualifying lower (lowered_word lower) s [] G) as Hout.
  { rewrite filter_relevant_glossary_first. apply first_qualifying_ext.
    intros e He. simpl in He. rewrite Forall_forall in Hs.
    unfold bangla_word, lowered_word.
    by rewrite (strip_fixed (bangla e)) by (by apply Hs). }
  unfold filter_glossary_contract, filter_glossary_spec. rewrite Hout.
  split_and!.
  - done.
  - apply first_qualifying_sublist.
  - apply Forall_forall. intros e He.
    apply first_qualifying_elem in He as [Hq _]. by apply qualifies_substring.
  - apply first_qualifying_NoDup.
Qed.

(** ** Example selector, continued *)

Section SelectMore.

Variable lower : pystr -> pystr.
Variable s : pystr.
Variable P : list Example.

(** Every request for at least one example is served from the pool. *)
Lemma select_positive k g :
  (1 <= k)%Z ->
  exists out g' rest,
    select_fewshot_examples lower s P k g = (Ok out, g')
    /\ length out = Nat.min (length P) (Z.to_nat k)
    /\ P ≡ₚ out ++ rest.
Proof.
  intros Hk. destruct (Z.le_gt_cases (Z.of_nat (length P)) k) as [Hsmall | Hlarge].
  - exists P, g, []. rewrite app_nil_r. split_and!; [by apply select_small | lia | done].
  - destruct (select_large lower s P k g)
      as (out & g' & others & rest & Hsel & Hperm & Htop & Hothers & Hrem); [lia|].
    exists out, g', rest. split_and!; [done | |].
    + apply Permutation_length in Hperm. rewrite length_app in Hperm. lia.
    + rewrite <- (top_examples_remaining lower s P k), Hrem, Hperm.
      by rewrite <- app_assoc.
Qed.

(** A list whose scores already descend is left as it is. *)
Lemma sort_desc_fixed {A} (l : list (Qc * A)) : descending l -> sort_desc l = l.
Proof.
  unfold descending. induction 1 as [|x l Hl IH Hx]; simpl; [done|].
  rewrite IH. destruct l as [|y l]; simpl; [done|].
  apply Forall_cons in Hx as [Hy _].
  rewrite bool_decide_eq_false_2; [done|]. by apply Qcle_not_lt.
Qed.

Lemma score_examples_tokenless :
  token_set lower s = ∅ ->
  score_examples lower s P = map (fun e => (0%Qc, e)) P.
Proof.
  intros Hs. unfold score_examples. rewrite Hs.
  apply map_ext. intros e. by rewrite similarity_empty_l.
Qed.

Lemma constant_scores_descending {A} (v : Qc) (l : list A) :
  descending (map (fun e => (v, e)) l).
Proof.
  unfold descending. induction l as [|e l IH]; simpl; constructor; [done|].
  apply Forall_forall. intros p Hp.
  apply list_elem_of_fmap in Hp as (e' & -> & _). simpl. apply Qcle_refl.
Qed.

End SelectMore.

(** X7: a selection is drawn from the pool and nothing else: whenever the
    selector returns, the pool is a rearrangement of the returned examples
    and the ones left out, so no example is returned more often than the
    pool holds it. *)
Theorem select_from_pool (lower : pystr -> pystr) (s : pystr)
    (P : list Example) (k : Z) (g g' : tape) (out : list Example) :
  select_fewshot_examples lower s P k g = (Ok out, g') ->
  exists rest, P ≡ₚ out ++ rest.
Proof.
  intros Hsel. destruct (Z.le_gt_cases 1 k) as [Hk | Hk].
  - destruct (select_positive lower s P k g Hk) as (out' & g'' & rest & H & _ & Hperm).
    rewrite H in Hsel. injection Hsel as <- <-. by exists rest.
  - destruct (Z.le_gt_cases (Z.of_nat (length P)) k) as [Hsmall | Hlarge].
    + rewrite select_small in Hsel by done. injection Hsel as <- <-.
      exists []. by rewrite app_nil_r.
    + rewrite select_nonpositive_raises in Hsel by lia. discriminate Hsel.
Qed.

Lemma select_from_pool_witness :
  exists rest,
    pool10 ≡ₚ [example_of boi; example_of (amar ++ space ++ boi);
                example_of (kitab ++ space ++ boi);
                example_of (boi ++ space ++ ache); example_of amar_boi_ache]
               ++ rest.
Proof.
  apply (select_from_pool lower_ascii amar_boi_ache pool10 5
           [3; 1; 4; 1; 5; 9; 2] []).
  by vm_compute.
Defined.

(** X8: for a request within the range of a float, [-2^1023 < k], the
    selector raises exactly when the request is for no example or a
    negative number of them and the pool is larger than the request (any
    non-empty pool, and the empty pool for a negative request); the
    exception is [ValueError] and the generator is untouched. In every
    other case it returns a selection. *)
Theorem select_raises_iff (lower : pystr -> pystr) (s : pystr)
    (P : list Example) (k : Z) (g : tape) :
  (- 2 ^ 1023 < k)%Z ->
  (select_fewshot_examples lower s P k g = (Raise ValueError, g)
   <-> (k <= 0 /\ k < Z.of_nat (length P))%Z)
  /\ ((exists out g', select_fewshot_examples lower s P k g = (Ok out, g'))
      <-> (1 <= k \/ Z.of_nat (length P) <= k)%Z).
Proof.
  intros _. destruct (Z.le_gt_cases 1 k) as [Hk | Hk].
  - destruct (select_positive lower s P k g Hk) as (out & g' & rest & H & _).
    split; split.
    + rewrite H. discriminate.
    + lia.
    + by left.
    + intros _. by exists out, g'.
  - destruct (Z.le_gt_cases (Z.of_nat (length P)) k) as [Hsmall | Hlarge].
    + rewrite select_small by done. split; split.
      * discriminate.
      * lia.
      * by right.
      * intros _. by exists P, g.
    + rewrite select_nonpositive_raises by lia. split; split.
      * intros _. lia.
      * done.
      * intros (out & g' & H). discriminate H.
      * lia.
Qed.

Lemma select_raises_iff_witness :
  select_fewshot_examples lower_ascii amar_boi_ache [] (-1) [7; 7]
  = (Raise ValueError, [7; 7])
  /\ exists out g',
       select_fewshot_examples lower_ascii amar_boi_ache pool10 1 [7; 7]
       = (Ok out, g').
Proof.
  split.
  - apply (select_raises_iff lower_ascii amar_boi_ache [] (-1) [7; 7]).
    + by vm_compute.
    + simpl. lia.
  - apply (select_raises_iff lower_ascii amar_boi_ache pool10 1 [7; 7]).
    + by vm_compute.
    + left. lia.
Defined.

(** X9: for a sentence without any token of the script (an English
    sentence, say) every score is 0 and the ranking is the pool order: the
    top tranche is the first [top_n] examples of the pool and the sample is
    drawn from the others. *)
Theorem tokenless_sentence_pool_order (lower : pystr -> pystr) (s : pystr)
    (P : list Example) (k : Z) :
  token_set lower s = ∅ ->
  map snd (scored_examples lower s P) = P
  /\ top_examples lower s P k = take (top_n k) P
  /\ remaining lower s P k = drop (top_n k) P.
Proof.
  intros Hs.
  assert (scored_examples lower s P = map (fun e => (0%Qc, e)) P) as Hscored.
  { unfold scored_examples. rewrite score_examples_tokenless by done.
    apply sort_desc_fixed, constant_scores_descending. }
  unfold top_examples, remaining. rewrite Hscored.
  rewrite firstn_map, skipn_map, !map_map. simpl. by rewrite !map_id.
Qed.

Lemma tokenless_sentence_pool_order_witness :
  top_examples lower_ascii (lit "no script here") pool10 5
  = [example_of amar; example_of boi; example_of amar_boi_ache].
Proof.
  assert (token_set lower_ascii (lit "no script here") = ∅) as Hs by reflexivity.
  exact (proj1 (proj2 (tokenless_sentence_pool_order lower_ascii
                         (lit "no script here") pool10 5 Hs))).
Defined.

(** ** The complete prompt *)



(** ** Glossary retriever *)

Lemma extract_loop_lookup (tokens : list pystr)
    (glossary_dict matched : gmap pystr pystr) (w : pystr) :
  extract_loop tokens glossary_dict matched !! w
  = match (if bool_decide (w ∈ tokens) then glossary_dict !! w else None) with
    | Some v => Some v
    | None => matched !! w
    end.
Proof.
  revert matched. induction tokens as [|word tokens IH]; intros matched.
  - cbn [extract_loop]. by rewrite bool_decide_eq_false_2 by apply not_elem_of_nil.
  - cbn [extract_loop]. destruct (decide (w = word)) as [-> | Hne].
    + rewrite (bool_decide_eq_true_2 (word ∈ word :: tokens)) by (by left).
      destruct (glossary_dict !! word) as [v|] eqn:Hv; rewrite IH.
      * rewrite lookup_insert_eq. by destruct (bool_decide _).
      * by destruct (bool_decide _).
    + assert (bool_decide (w ∈ word :: tokens) = bool_decide (w ∈ tokens)) as ->.
      { apply bool_decide_ext. rewrite elem_of_cons.
        split; [by intros [Hw | Hw] | by right]. }
      destruct (glossary_dict !! word) as [v|]; rewrite IH; [|done].
      by rewrite lookup_insert_ne by done.
Qed.

(** X11: the retriever restricts the dictionary to the tokens: a word is
    mapped to what the dictionary maps it to if it is among the tokens,
    and is absent otherwise; no look-up can fail, and repeated tokens
    change nothing. *)
Theorem extract_glossary_subset_lookup (tokens : list pystr)
    (glossary_dict : gmap pystr pystr) (w : pystr) :
  extract_glossary_subset tokens glossary_dict !! w
  = if bool_decide (w ∈ tokens) then glossary_dict !! w else None.
Proof.
  unfold extract_glossary_subset. rewrite extract_loop_lookup, lookup_empty.
  destruct (bool_decide _); [|done]. by destruct (glossary_dict !! w).
Qed.

(** X12: with the tokens of [tokenize_bangla], the retriever never returns
    a dictionary key that is empty or holds a character outside the block,
    such as a phrase of two words, also when the phrase stands in the
    sentence. *)
Theorem retriever_misses_phrases (sentence : pystr)
    (glossary_dict : gmap pystr pystr) (w : pystr) :
  w = [] \/ Exists sep_char w ->
  extract_glossary_subset (tokenize_bangla sentence) glossary_dict !! w = None.
Proof.
  intros Hw. unfold extract_glossary_subset.
  rewrite extract_loop_lookup, lookup_empty.
  rewrite bool_decide_eq_false_2; [done|].
  intros Hin. unfold tokenize_bangla in Hin.
  pose proof (maximal_runs_tokens _ _ (findall_maximal_runs sentence)) as Htok.
  rewrite Forall_forall in Htok. destruct (Htok w Hin) as [Hne Hscript].
  destruct Hw as [-> | Hsep]; [done|].
  apply Exists_exists in Hsep as (c & Hc & Hsep).
  rewrite Forall_forall in Hscript. specialize (Hscript c Hc).
  unfold sep_char, script_char in *. congruence.
Qed.

Lemma retriever_misses_phrases_witness :
  boi_dict !! (amar ++ space ++ boi) = Some kitab
  /\ extract_glossary_subset (tokenize_bangla amar_boi_ache) boi_dict
     !! (amar ++ space ++ boi) = None.
Proof.
  split; [by vm_compute|].
  apply (retriever_misses_phrases amar_boi_ache boi_dict (amar ++ space ++ boi)).
  right. apply Exists_exists. exists 32%N. split; [|done].
  apply elem_of_app. right. by left.
Defined.

(** The filter of the prompt generator does find the phrase. *)
Example filter_finds_phrase :
  filter_relevant_glossary lower_ascii amar_boi_ache
    [{| bangla := amar ++ space ++ boi; sylheti := kitab |}]
  = [{| bangla := amar ++ space ++ boi; sylheti := kitab |}].
Proof. by vm_compute. Qed.

(** ** Dialect to language translation *)

Section ProcessFile.

Import DialectToLanguage.

Variables dialect language model : pystr.

Lemma process_items_step_budget (n : nat) :
  (4 - Z.of_nat (S n) + 1 = 4 - Z.of_nat n)%Z.
Proof. lia. Qed.

(** The zero-shot loop with [n] passes left before the counter reaches 5. *)
Lemma process_items_zero_shot data n translations client :
  n <= 3 ->
  Forall has_sentence (take n data) ->
  Nat.min n (length data) <= length client ->
  process_items dialect language (lit "Zero-Shot") model data
    (4 - Z.of_nat n) translations client
  = (inr (translations ++ zip_with translated (take n data) client),
     drop (Nat.min n (length data)) client).
Proof.
  revert n translations client.
  induction data as [|it data IH]; intros n acc client Hn Hkeys Hclient.
  - cbn [process_items]. rewrite take_nil. simpl.
    by rewrite app_nil_r, Nat.min_0_r.
  - cbn [process_items]. destruct n as [|n].
    + rewrite bool_decide_eq_true_2 by lia. simpl. by rewrite app_nil_r.
    + rewrite bool_decide_eq_false_2 by lia.
      rewrite firstn_cons in Hkeys. apply Forall_cons in Hkeys as [[sentence Hs] Hkeys].
      rewrite Hs. rewrite bool_decide_eq_true_2 by done.
      cbn [zero_shot_prompt].
      destruct client as [|content client]; [simpl in Hclient; lia|].
      cbn [OpenAI_translate]. rewrite process_items_step_budget.
      rewrite IH; [|lia | done | simpl in Hclient; lia].
      simpl. by rewrite <- app_assoc.
Qed.

(** The zero-shot loop reaching an item without the sentence. *)
Lemma process_items_key_error pre it post n translations client :
  n <= 3 -> length pre < n ->
  Forall has_sentence pre -> it !! input_sentence_key = None ->
  length pre <= length client ->
  process_items dialect language (lit "Zero-Shot") model (pre ++ it :: post)
    (4 - Z.of_nat n) translations client
  = (inl (KeyError input_sentence_key), drop (length pre) client).
Proof.
  revert n translations client.
  induction pre as [|p pre IH]; intros n acc client Hn Hpre Hkeys Hit Hclient.
  - cbn [process_items app]. rewrite bool_decide_eq_false_2 by (simpl in Hpre; lia).
    by rewrite Hit.
  - cbn [process_items app]. destruct n as [|n]; [simpl in Hpre; lia|].
    rewrite bool_decide_eq_false_2 by lia.
    apply Forall_cons in Hkeys as [[sentence Hs] Hkeys].
    rewrite Hs. rewrite bool_decide_eq_true_2 by done.
    cbn [zero_shot_prompt].
    destruct client as [|content client]; [simpl in Hclient; lia|].
    cbn [OpenAI_translate]. rewrite process_items_step_budget.
    rewrite IH; [done | lia | simpl in Hpre; lia | done | done | simpl in Hclient; lia].
Qed.

(** The few-shot loop: no request, and the items pass as they are. *)
Lemma process_items_few_shot data n translations client :
  n <= 3 ->
  Forall (fun it => has_sentence it /\ is_Some (it !! lit "translation"))
         (take n data) ->
  process_items dialect language (lit "Few-Shot") model data
    (4 - Z.of_nat n) translations client
  = (inr (translations ++ take n data), client).
Proof.
  revert n translations.
  induction data as [|it data IH]; intros n acc Hn Hkeys.
  - cbn [process_items]. by rewrite take_nil, app_nil_r.
  - cbn [process_items]. destruct n as [|n].
    + rewrite bool_decide_eq_true_2 by lia. simpl. by rewrite app_nil_r.
    + rewrite bool_decide_eq_false_2 by lia.
      rewrite firstn_cons in Hkeys.
      apply Forall_cons in Hkeys as [[[sentence Hs] [t Ht]] Hkeys].
      rewrite Hs. rewrite bool_decide_eq_false_2 by done.
      rewrite bool_decide_eq_true_2 by done. rewrite Ht.
      rewrite process_items_step_budget.
      rewrite IH; [|lia | done]. simpl. by rewrite <- app_assoc.
Qed.

End ProcessFile.

(** X13: the user prompt of [zero_shot_prompt] carries the sentence as it
    is, between the dialect label and the language label: for a given
    dialect and language, two sentences with the same user prompt are the
    same sentence. *)
Theorem zero_shot_prompt_sentence (dialect language s1 s2 : pystr) :
  (DialectToLanguage.zero_shot_prompt dialect language s1).2
  = (DialectToLanguage.zero_shot_prompt dialect language s2).2 ->
  s1 = s2.
Proof.
  unfold DialectToLanguage.zero_shot_prompt. cbn [snd]. intros H.
  do 4 apply app_inv_head in H.
  by apply app_inv_tail in H.
Qed.

Lemma zero_shot_prompt_sentence_witness : boi = [0x9AC; 0x987]%N.
Proof.
  apply (zero_shot_prompt_sentence (lit "Sylheti") (lit "English")).
  reflexivity.
Defined.

(** X14: in zero-shot mode [process_file] translates the first three items
    only: the counter starts at 1 and the loop is left when it reaches 5.
    If the first three items carry the sentence and the service answers,
    the result is these items, each with the stripped response as its
    translation; items beyond the third are neither read nor sent. *)
Theorem process_file_first_three (data : list (gmap pystr pystr))
    (dialect language model : pystr) (client : list pystr) :
  Forall has_sentence (take 3 data) ->
  Nat.min 3 (length data) <= length client ->
  DialectToLanguage.process_file data dialect language (lit "Zero-Shot") model client
  = (inr (zip_with translated (take 3 data) client),
     drop (Nat.min 3 (length data)) client).
Proof.
  intros Hkeys Hclient. unfold DialectToLanguage.process_file.
  change 1%Z with (4 - Z.of_nat 3)%Z.
  by rewrite (process_items_zero_shot dialect language model data 3 [] client).
Qed.

Lemma process_file_first_three_witness :
  DialectToLanguage.process_file
    [item_of amar; item_of boi; item_of ache; ∅; item_of kitab]
    (lit "Sylheti") (lit "English") (lit "Zero-Shot") (lit "gpt-4.1-mini")
    [lit " mine "; lit "book"; lit "is"; lit "unused"]
  = (inr [translated (item_of amar) (lit " mine ");
          translated (item_of boi) (lit "book");
          translated (item_of ache) (lit "is")],
     [lit "unused"]).
Proof.
  apply (process_file_first_three
           [item_of amar; item_of boi; item_of ache; ∅; item_of kitab]).
  - repeat constructor; by eexists.
  - simpl. lia.
Defined.

(** X15: one item without the sentence among the first three loses the
    whole run. The items in front of it are translated, their responses
    are used up, and then [KeyError] is raised and nothing is returned. *)
Theorem process_file_key_error (pre post : list (gmap pystr pystr))
    (it : gmap pystr pystr) (dialect language model : pystr)
    (client : list pystr) :
  length pre < 3 -> Forall has_sentence pre ->
  it !! DialectToLanguage.input_sentence_key = None ->
  length pre <= length client ->
  DialectToLanguage.process_file (pre ++ it :: post) dialect language
    (lit "Zero-Shot") model client
  = (inl (DialectToLanguage.KeyError DialectToLanguage.input_sentence_key),
     drop (length pre) client).
Proof.
  intros Hpre Hkeys Hit Hclient. unfold DialectToLanguage.process_file.
  change 1%Z with (4 - Z.of_nat 3)%Z.
  by rewrite (process_items_key_error dialect language model pre it post 3 [] client).
Qed.

Lemma process_file_key_error_witness :
  DialectToLanguage.process_file
    ([item_of amar; item_of boi] ++ ∅ :: [item_of ache])
    (lit "Sylheti") (lit "English") (lit "Zero-Shot") (lit "gpt-4.1-mini")
    [lit "mine"; lit "book"; lit "is"]
  = (inl (DialectToLanguage.KeyError DialectToLanguage.input_sentence_key),
     [lit "is"]).
Proof.
  apply (process_file_key_error [item_of amar; item_of boi] [item_of ache] ∅).
  - simpl. lia.
  - repeat constructor; by eexists.
  - reflexivity.
  - simpl. lia.
Defined.

(** X16: in few-shot mode nothing is translated. If the first three items
    carry the sentence and already have a translation field, they are
    returned as they are and no request is made. *)
Theorem process_file_few_shot (data : list (gmap pystr pystr))
    (dialect language model : pystr) (client : list pystr) :
  Forall (fun it => has_sentence it /\ is_Some (it !! lit "translation"))
         (take 3 data) ->
  DialectToLanguage.process_file data dialect language (lit "Few-Shot") model client
  = (inr (take 3 data), client).
Proof.
  intros Hkeys. unfold DialectToLanguage.process_file.
  change 1%Z with (4 - Z.of_nat 3)%Z.
  by rewrite (process_items_few_shot dialect language model data 3 [] client).
Qed.

Lemma process_file_few_shot_witness :
  DialectToLanguage.process_file
    [translated (item_of amar) (lit "mine"); translated (item_of boi) (lit "book")]
    (lit "Sylheti") (lit "English") (lit "Few-Shot") (lit "gpt-4.1-mini")
    [lit "unused"]
  = (inr [translated (item_of amar) (lit "mine");
          translated (item_of boi) (lit "book")],
     [lit "unused"]).
Proof.
  apply (process_file_few_shot
           [translated (item_of amar) (lit "mine");
            translated (item_of boi) (lit "book")]).
  repeat constructor; by eexists.
Defined.

(** ** Tokenizer, continued *)

Lemma class_run_sep a c b :
  sep_char c -> class_run (a ++ c :: b) = class_run a.
Proof.
  intros Hc. induction a as [|d a IH]; simpl; [by rewrite Hc|].
  destruct (in_bengali_block d); [by rewrite IH | done].
Qed.

Lemma class_rest_sep a c b :
  sep_char c -> class_rest (a ++ c :: b) = class_rest a ++ c :: b.
Proof.
  intros Hc. induction a as [|d a IH]; simpl; [by rewrite Hc|].
  by destruct (in_bengali_block d).
Qed.

(** X17: the tokenizer works piece by piece: across a character outside
    the block, the tokens of a text are the tokens of what stands in front
    of the character followed by the tokens of what stands behind it. *)
Theorem tokenize_app_sep (a b : pystr) (c : char) :
  sep_char c ->
  tokenize_sentence (a ++ c :: b) = tokenize_sentence a ++ tokenize_sentence b.
Proof.
  intros Hc. unfold tokenize_sentence.
  remember (length a) as n eqn:Hn. revert a Hn.
  induction n as [n IH] using lt_wf_ind. intros a ->.
  destruct a as [|d a]; simpl.
  - rewrite findall_sep by done. by simp findall.
  - destruct (in_bengali_block d) eqn:Hd.
    + rewrite !findall_script by done.
      rewrite class_run_sep, class_rest_sep by done. simpl. f_equal.
      eapply IH; [|done]. pose proof (class_rest_length a). simpl. lia.
    + rewrite !findall_sep by done. eapply IH; [|done]. simpl. lia.
Qed.

Lemma tokenize_app_sep_witness :
  tokenize_sentence (amar ++ 32%N :: boi)
  = tokenize_sentence amar ++ tokenize_sentence boi.
Proof. apply (tokenize_app_sep amar boi 32%N). reflexivity. Defined.

(** X18: a token is a fixed point of the tokenizer: tokenizing a token of
    any text gives that token alone. *)
Theorem tokenize_token (t tok : pystr) :
  tok ∈ tokenize_sentence t -> tokenize_sentence tok = [tok].
Proof.
  intros Hin. unfold tokenize_sentence in *.
  pose proof (maximal_runs_tokens _ _ (findall_maximal_runs t)) as Htok.
  rewrite Forall_forall in Htok. destruct (Htok tok Hin) as [Hne Hscript].
  symmetry. apply maximal_runs_findall.
  rewrite <- (app_nil_r tok) at 1.
  apply (runs_tok [] tok [] []); try done. by apply runs_end.
Qed.

Lemma tokenize_token_witness : tokenize_sentence boi = [boi].
Proof.
  apply (tokenize_token amar_boi_ache boi).
  replace (tokenize_sentence amar_boi_ache) with [amar; boi; ache]
    by (by vm_compute).
  right. by left.
Defined.

(** ** Similarity, continued *)

Lemma truediv_eq_0 a b : truediv a b = 0%Qc <-> a = 0.
Proof.
  unfold truediv. rewrite Q2Qc_eq_iff. unfold Qeq. simpl. lia.
Qed.

Lemma truediv_eq_1 a b : b <> 0 -> truediv a b = 1%Qc <-> a = b.
Proof.
  intros Hb. unfold truediv. rewrite Q2Qc_eq_iff. unfold Qeq. simpl.
  rewrite Zpos_of_nat by done. lia.
Qed.

(** X19: the similarity of an example is 0 exactly when it shares no token
    with the sentence. *)
Theorem similarity_zero_iff (I E : gset pystr) :
  similarity I E = 0%Qc <-> I ∩ E = ∅.
Proof.
  unfold similarity. rewrite truediv_eq_0. split.
  - intros Hs. by apply size_empty_iff, leibniz_equiv in Hs.
  - intros ->. apply size_empty.
Qed.

Lemma similarity_zero_iff_witness :
  similarity (token_set lower_ascii amar) (token_set lower_ascii boi) = 0%Qc.
Proof.
  apply (similarity_zero_iff (token_set lower_ascii amar) (token_set lower_ascii boi)).
  apply set_eq. intros w. split; [|intros Hw; by apply not_elem_of_empty in Hw].
  intros [Ha Hb]%elem_of_intersection.
  apply elem_of_list_to_set in Ha, Hb.
  replace (tokenize_sentence (lower_ascii amar)) with [amar] in Ha by (by vm_compute).
  replace (tokenize_sentence (lower_ascii boi)) with [boi] in Hb by (by vm_compute).
  apply list_elem_of_singleton in Ha, Hb. subst w. discriminate Hb.
Defined.

(** X20: the similarity is 1, the top score, exactly for an example with
    the token set of the sentence, provided the sentence has a token. *)
Theorem similarity_one_iff (I E : gset pystr) :
  similarity I E = 1%Qc <-> I = E /\ I <> ∅.
Proof.
  split.
  - unfold similarity. rewrite truediv_eq_1 by lia. intros Hs.
    assert (I ∩ E ⊆ I ∪ E) as Hsub.
    { intros w [Hw _]%elem_of_intersection. apply elem_of_union. by left. }
    assert (size (I ∪ E) <= size (I ∩ E)) as Hle by lia.
    pose proof (set_subseteq_size_eq _ _ Hsub Hle) as Heq.
    assert (I = E) as <-.
    { apply set_eq. intros w. split; intros Hw.
      - assert (w ∈ I ∩ E) as Hw' by (rewrite Heq; apply elem_of_union; by left).
        by apply elem_of_intersection in Hw' as [_ Hw'].
      - assert (w ∈ I ∩ E) as Hw' by (rewrite Heq; apply elem_of_union; by right).
        by apply elem_of_intersection in Hw' as [Hw' _]. }
    split; [done|]. intros ->.
    rewrite (idemp_L (∩) (∅ : gset pystr)), size_empty in Hs. lia.
  - intros [<- HI]. by apply similarity_self.
Qed.

Lemma similarity_one_iff_witness :
  token_set lower_ascii (boi ++ space ++ amar)
  = token_set lower_ascii (amar ++ space ++ boi)
  /\ token_set lower_ascii (boi ++ space ++ amar) <> ∅.
Proof.
  apply (similarity_one_iff (token_set lower_ascii (boi ++ space ++ amar))
           (token_set lower_ascii (amar ++ space ++ boi))).
  apply Qc_is_canon. by vm_compute.
Defined.

(** ** The rank of an example with the sentence as its source *)

Lemma with_score_app {A} v (l1 l2 : list (Qc * A)) :
  with_score v (l1 ++ l2) = with_score v l1 ++ with_score v l2.
Proof. apply List.filter_app. Qed.

Lemma with_score_length {A} v (l : list (Qc * A)) :
  length (with_score v l) <= length l.
Proof.
  induction l as [|x l IH]; simpl; [done|].
  destruct (bool_decide (x.1 = v)); simpl; lia.
Qed.

Lemma with_score_below {A} v (l : list (Qc * A)) :
  Forall (fun p => (p.1 < v)%Qc) l -> with_score v l = [].
Proof.
  induction 1 as [|x l Hx _ IH]; simpl; [done|].
  rewrite bool_decide_eq_false_2; [done|]. by apply Qclt_not_eq.
Qed.

(** In a descending list the entries of the largest score stand in
    front. *)
Lemma with_score_prefix {A} m (l : list (Qc * A)) :
  descending l -> Forall (fun p => (p.1 <= m)%Qc) l ->
  take (length (with_score m l)) l = with_score m l.
Proof.
  unfold descending. induction 1 as [|x l Hl IH Hx]; intros Hmax; [done|].
  apply Forall_cons in Hmax as [Hxm Hmax]. simpl.
  case_bool_decide as Heq; simpl.
  - by rewrite IH.
  - rewrite with_score_below; [done|].
    eapply Forall_impl; [exact Hx|]. simpl. intros p Hp.
    eapply Qcle_lt_trans; [exact Hp|].
    destruct (Qcle_lt_or_eq _ _ Hxm) as [Hlt | Heq']; [done | by destruct Heq].
Qed.

(** The stable sort ranks an entry of the largest score behind exactly
    those entries in front of it that carry the same score. *)
Lemma sort_desc_rank {A} (l : list (Qc * A)) i m (e : A) :
  l !! i = Some (m, e) -> Forall (fun p => (p.1 <= m)%Qc) l ->
  sort_desc l !! length (with_score m (take i l)) = Some (m, e).
Proof.
  intros Hi Hmax.
  assert (with_score m l
          = with_score m (take i l) ++ (m, e) :: with_score m (drop (S i) l)) as Hws.
  { rewrite <- (take_drop_middle l i (m, e)) at 1 by done.
    rewrite with_score_app. simpl. by rewrite bool_decide_eq_true_2. }
  assert (Forall (fun p => (p.1 <= m)%Qc) (sort_desc l)) as Hmax'.
  { by rewrite sort_desc_perm. }
  pose proof (with_score_prefix m (sort_desc l) (sort_desc_descending l) Hmax')
    as Hpre.
  rewrite sort_desc_with_score, Hws in Hpre.
  rewrite <- (take_drop (length (with_score m (take i l) ++ (m, e)
                                  :: with_score m (drop (S i) l))) (sort_desc l)).
  rewrite Hpre. rewrite <- app_assoc. by apply list_lookup_middle.
Qed.

(** C7, with the score as the code computes it: in a pool of ten examples
    with [k = 5], take the third example and its source as the input
    sentence. No example scores higher than it; its score is 1 when the
    sentence has a token of the script, and when it has none every score is
    0. The stable descending sort ranks it behind exactly those of the two
    examples in front of it in the pool that score as high, so it is in
    the tranche of [top_n = 3], and every selection contains it. *)
Theorem identical_sentence_selected (lower : pystr -> pystr)
    (P : list Example) (e : Example) (g : tape) :
  length P = 10 -> P !! 2 = Some e ->
  top_n 5 = 3
  /\ Forall (fun p => (p.1 <= similarity (token_set lower (bangla_speech e))
                                         (token_set lower (bangla_speech e)))%Qc)
            (scored_examples lower (bangla_speech e) P)
  /\ (token_set lower (bangla_speech e) <> ∅ ->
      similarity (token_set lower (bangla_speech e))
                 (token_set lower (bangla_speech e)) = 1%Qc)
  /\ (token_set lower (bangla_speech e) = ∅ ->
      Forall (fun p => p.1 = 0%Qc) (scored_examples lower (bangla_speech e) P))
  /\ scored_examples lower (bangla_speech e) P
       !! length (with_score (similarity (token_set lower (bangla_speech e))
                                         (token_set lower (bangla_speech e)))
                    (take 2 (score_examples lower (bangla_speech e) P)))
     = Some (similarity (token_set lower (bangla_speech e))
                        (token_set lower (bangla_speech e)), e)
  /\ length (with_score (similarity (token_set lower (bangla_speech e))
                                    (token_set lower (bangla_speech e)))
               (take 2 (score_examples lower (bangla_speech e) P))) <= 2
  /\ e ∈ top_examples lower (bangla_speech e) P 5
  /\ exists out g',
       select_fewshot_examples lower (bangla_speech e) P 5 g = (Ok out, g')
       /\ e ∈ out.
Proof.
  intros Hlen He.
  set (s := bangla_speech e).
  set (m := similarity (token_set lower s) (token_set lower s)).
  assert (score_examples lower s P !! 2 = Some (m, e)) as Hscore.
  { by apply score_examples_lookup. }
  pose proof (score_examples_max lower s P) as Hmax. fold m in Hmax.
  assert (length (with_score m (take 2 (score_examples lower s P))) <= 2) as Hc.
  { etrans; [apply with_score_length|]. rewrite length_take. lia. }
  assert (scored_examples lower s P
            !! length (with_score m (take 2 (score_examples lower s P)))
          = Some (m, e)) as Hrank.
  { unfold scored_examples. by apply sort_desc_rank. }
  assert (e ∈ top_examples lower s P 5) as Htop.
  { unfold top_examples.
    apply (list_elem_of_fmap_2 snd _ (m, e)).
    apply elem_of_take. eexists. split; [exact Hrank|].
    change (top_n 5) with 3. lia. }
  split_and!.
  - reflexivity.
  - unfold scored_examples. by rewrite sort_desc_perm.
  - apply similarity_self.
  - intros Hs. unfold scored_examples. rewrite sort_desc_perm.
    rewrite score_examples_tokenless by done.
    apply Forall_forall. intros p Hp.
    by apply list_elem_of_fmap in Hp as (x & -> & _).
  - exact Hrank.
  - exact Hc.
  - exact Htop.
  - destruct (select_large lower s P 5 g)
      as (out & g' & others & rest & Hsel & Hperm & _); [lia|].
    exists out, g'. split; [done|].
    rewrite Hperm. apply elem_of_app. by left.
Qed.

Lemma identical_sentence_selected_witness :
  scored_examples lower_ascii amar_boi_ache pool10 !! 0
  = Some (1%Qc, example_of amar_boi_ache)
  /\ exists out g',
       select_fewshot_examples lower_ascii amar_boi_ache pool10 5
         [3; 1; 4; 1; 5; 9; 2] = (Ok out, g')
       /\ example_of amar_boi_ache ∈ out.
Proof.
  destruct (identical_sentence_selected lower_ascii pool10
              (example_of amar_boi_ache) [3; 1; 4; 1; 5; 9; 2] eq_refl eq_refl)
    as (_ & _ & Hone & _ & Hrank & _ & _ & Hsel).
  split; [|exact Hsel].
  assert (token_set lower_ascii amar_boi_ache <> ∅) as Hne.
  { intros Hs. assert (amar ∈ token_set lower_ascii amar_boi_ache) as Hin.
    { apply elem_of_list_to_set.
      replace (tokenize_sentence (lower_ascii amar_boi_ache))
        with [amar; boi; ache] by (by vm_compute).
      by left. }
    rewrite Hs in Hin. by apply not_elem_of_empty in Hin. }
  simpl in Hone, Hrank. rewrite (Hone Hne) in Hrank.
  replace (length (with_score 1%Qc (take 2 (score_examples lower_ascii
                                              amar_boi_ache pool10))))
    with 0 in Hrank; [exact Hrank|].
  symmetry. apply length_zero_iff_nil.
  apply with_score_below. repeat constructor; by vm_compute.
Defined.

(** C7 as the specification words it, with similarity 1.0 for every pool:
    when the third example and the sentence are "no script here", the
    token sets are empty and the similarity is 0. *)
Lemma identical_sentence_score_fails :
  length unscripted_pool = 10
  /\ unscripted_pool !! 2 = Some (example_of (lit "no script here"))
  /\ similarity (token_set lower_ascii (lit "no script here"))
                (token_set lower_ascii (lit "no script here")) = 0%Qc
  /\ ~ identical_sentence_claim lower_ascii unscripted_pool
         (example_of (lit "no script here")).
Proof.
  assert (token_set lower_ascii (lit "no script here") = ∅) as Hs by reflexivity.
  split_and!; [done | done | by rewrite Hs, similarity_empty_l |].
  intros (_ & Hone & _).
  change (bangla_speech (example_of (lit "no script here")))
    with (lit "no script here") in Hone.
  rewrite Hs, similarity_empty_l in Hone.
  apply Q2Qc_eq_iff in Hone. discriminate Hone.
Qed.
